(** * IoT attack-simulation engine: a shallow embedding and its properties

    The development follows the JavaScript sources of the platform:

    - [data/devices.js] and [data/attacks.js]: the static registries;
    - [utils/helpers.js]: [randomElement], [randomBetween], [generateId];
    - [src/hooks/useAttackMap.js], which holds two hooks: [useAttackMap]
      with [weightedRandomOrigin], and [useSimulation], the engine
      ([startAttack], [stopAttack], [toggleProtocol], [clearEvents],
      [pushEvent], [refreshStats]);
    - [src/context/SimulationContext.jsx]: [useSimulationContext];
    - the callers of the engine: [Layout] (the threat level), the home page
      ([stopAllAttacks]), the dashboard page ([deriveRiskMeta],
      [blockedRate]) and its [EventLog] ([visibleEvents]).

    Modelling conventions.

    - JavaScript numbers that hold integers (counters, millisecond
      timestamps) are [Z]; numbers that hold fractions (weights,
      coordinates, the result of [Math.random]) are exact rationals [Q].
      The roulette of [weightedRandomOrigin], whose result depends on
      rounding, is also given in binary64 ([weightedRandomOrigin64]), each
      rational standing for the double nearest to it.
    - Each engine action is one atomic transition of the hook's state: the
      updaters it queues with the [set...] functions are applied once each,
      in the order they are queued.  [main.jsx] mounts [React.StrictMode],
      under which a development build may invoke an updater twice; the
      feed's counters, which an updater advances, are followed through both
      kinds of firing ([feedRunIn]).
    - The environment ([Math.random], [Date.now], [generateId]) is an
      explicit input of every action that consults it.
    - [undefined] and [null] in a field that otherwise holds a string are
      both [None]. *)

From Stdlib Require Import List Bool Arith ZArith QArith Qround String Ascii Sorted Lia Lqa.
From Stdlib Require Import HexadecimalString HexadecimalZ.
From Stdlib Require PrimFloat Uint63 SpecFloat FloatOps.
Import ListNotations.

Local Open Scope string_scope.
Local Open Scope list_scope.
Local Open Scope Z_scope.

(** ** Static registries *)

(** [DEVICE_TYPES] of [data/devices.js]. *)
Inductive DeviceType : Type :=
| CAMERA | DOOR_LOCK | THERMOSTAT | MOTION_SENSOR | SMART_LIGHT | ROUTER.

(** [STATUS] of [data/devices.js]. *)
Inductive Status : Type :=
| SECURE | WARNING | COMPROMISED.

(** The severity labels that occur in attack definitions and log entries. *)
Inductive Severity : Type :=
| info | medium | high | critical.

Definition Severity_eqb (a b : Severity) : bool :=
  match a, b with
  | info, info | medium, medium | high, high | critical, critical => true
  | _, _ => false
  end.

(** One entry of the [devices] array. *)
Record DeviceInfo : Type := mkDeviceInfo {
  dev_id : string;
  dev_name : string;
  dev_type : DeviceType;
  dev_position : list Q;
  dev_description : string;
  dev_firmware : string;
  dev_protocol : string;
  dev_vulnerabilities : list string;
  dev_icon : string
}.

(** A device at run time: the registry entry spread into a fresh object,
    plus the mutable [status]. *)
Record Device : Type := mkDevice {
  info_of : DeviceInfo;
  status : Status
}.

Definition id_of (d : Device) : string := dev_id (info_of d).

(** One entry of the [attackDefinitions] array. *)
Record AttackDefinition : Type := mkAttackDefinition {
  def_id : string;
  def_name : string;
  def_shortName : string;
  def_description : string;
  def_targetDevices : list string;
  def_severity : Severity;
  def_color : string;
  def_protocolBlock : string;
  def_mitreTactic : string
}.

(** One entry of the [attackOrigins] array. *)
Record Origin : Type := mkOrigin {
  country : string;
  lat : Q;
  lng : Q;
  weight : Q
}.

Module Registry.

Definition devices : list DeviceInfo :=
  [ mkDeviceInfo "router-01" "Wi-Fi Router" ROUTER [0; 12 # 10; 0]%Q
      "Central hub — routes all smart home traffic" "v3.2.1" "WPA3"
      ["Default credentials"; "Open management port"] "Wifi";
    mkDeviceInfo "camera-01" "Smart Camera" CAMERA [25 # 10; 2; 15 # 10]%Q
      "IP surveillance camera — entrance monitoring" "v1.4.0" "RTSP"
      ["Unencrypted video stream"; "Weak authentication"] "Camera";
    mkDeviceInfo "lock-01" "Smart Door Lock" DOOR_LOCK [3; 1; 0]%Q
      "Electronic lock with remote access" "v2.1.0" "BLE/Zigbee"
      ["Replay attack vector"; "BLE sniffing"] "Lock";
    mkDeviceInfo "thermostat-01" "Smart Thermostat" THERMOSTAT
      [-2; 15 # 10; 1]%Q
      "Climate control with remote scheduling" "v1.8.3" "Z-Wave"
      ["Insecure API endpoint"; "No certificate pinning"] "Thermometer";
    mkDeviceInfo "motion-01" "Motion Sensor" MOTION_SENSOR
      [0; 28 # 10; -2]%Q
      "PIR motion detector for security system" "v1.0.2" "Zigbee"
      ["Signal jamming"; "No tamper detection"] "Activity";
    mkDeviceInfo "light-01" "Smart Light" SMART_LIGHT
      [-(15 # 10); 25 # 10; -1]%Q
      "RGB smart bulb with scheduling" "v2.0.1" "Wi-Fi"
      ["Network enumeration via bulb"; "Cleartext commands"] "Lightbulb" ].

Definition attackDefinitions : list AttackDefinition :=
  [ mkAttackDefinition "brute_force" "Brute Force Attack" "Brute Force"
      "Automated password guessing against device authentication."
      ["camera-01"; "lock-01"; "router-01"] high "#ff3366"
      "Authentication layer blocks after 3 failed attempts and triggers alert."
      "Credential Access (T1110)";
    mkAttackDefinition "man_in_the_middle" "Man-in-the-Middle" "MITM"
      "Attacker intercepts communication between IoT device and hub."
      ["thermostat-01"; "camera-01"; "router-01"] critical "#ff0044"
      "Encrypted tunnel with mutual TLS prevents interception."
      "Collection (T1557)";
    mkAttackDefinition "unauthorized_access" "Unauthorized Access"
      "Unauth Access"
      "Exploiting default credentials or API weaknesses."
      ["lock-01"; "light-01"; "thermostat-01"] high "#ff6600"
      "Multi-factor device authentication and RBAC deny unauthorized requests."
      "Initial Access (T1078)";
    mkAttackDefinition "denial_of_service" "Denial of Service" "DoS"
      "Flooding device with requests to make it unresponsive."
      ["router-01"; "camera-01"] medium "#ff9900"
      "Rate limiting and traffic analysis detect anomalous patterns."
      "Impact (T1499)";
    mkAttackDefinition "replay_attack" "Replay Attack" "Replay"
      "Capturing and retransmitting valid commands."
      ["lock-01"; "light-01"] high "#cc3399"
      "Nonce-based message authentication ensures each command is unique."
      "Credential Access (T1040)";
    mkAttackDefinition "firmware_exploit" "Firmware Exploit" "Firmware"
      "Exploiting vulnerabilities in outdated device firmware."
      ["motion-01"; "camera-01"; "thermostat-01"] critical "#ff0066"
      "Secure boot chain and signed firmware updates prevent exploitation."
      "Execution (T1195)" ].

Definition attackOrigins : list Origin :=
  [ mkOrigin "China" (399 # 10) (1164 # 10) (25 # 100);
    mkOrigin "Russia" (5575 # 100) (3762 # 100) (20 # 100);
    mkOrigin "USA" (389 # 10) (-(7704 # 100)) (10 # 100);
    mkOrigin "Brazil" (-(158 # 10)) (-(479 # 10)) (8 # 100);
    mkOrigin "India" (286 # 10) (772 # 10) (7 # 100);
    mkOrigin "Iran" (357 # 10) (514 # 10) (6 # 100);
    mkOrigin "North Korea" 39 (1258 # 10) (5 # 100);
    mkOrigin "Nigeria" (906 # 100) (749 # 100) (4 # 100);
    mkOrigin "Vietnam" (2103 # 100) (10585 # 100) (4 # 100);
    mkOrigin "Turkey" (3993 # 100) (3286 # 100) (3 # 100);
    mkOrigin "Germany" (5252 # 100) (1341 # 100) (3 # 100);
    mkOrigin "Romania" (4443 # 100) (261 # 10) (3 # 100);
    mkOrigin "Ukraine" (5045 # 100) (3052 # 100) (2 # 100) ]%Q.

End Registry.

(** ** Helpers ([utils/helpers.js]) *)

(** [randomElement(array)] is
    [array[Math.floor(Math.random() * array.length)]]; the draw of
    [Math.random] is the argument [rnd].  An index outside the array reads
    [undefined], here [None]. *)
Definition randomElement {A : Type} (rnd : Q) (array : list A) : option A :=
  let i := Qfloor (rnd * inject_Z (Z.of_nat (List.length array))) in
  if i <? 0 then None else nth_error array (Z.to_nat i).

(** Strict equality [===] on a value that is a string or [undefined]/[null]. *)
Definition opt_eqb (a b : option string) : bool :=
  match a, b with
  | Some x, Some y => String.eqb x y
  | None, None => true
  | _, _ => false
  end.

(** How a template literal prints such a value. *)
Definition show_target (t : option string) : string :=
  match t with
  | Some x => x
  | None => "undefined"
  end.

(** ** Run-time data of the engine ([useSimulation]) *)

Definition MAX_EVENTS : nat := 50.

Record Attack : Type := mkAttack {
  id : string;
  type : string;
  name : string;
  shortName : string;
  severity : Severity;
  color : string;
  targetDeviceId : option string;
  blocked : bool;
  timestamp : Z
}.

Record Event : Type := mkEvent {
  ev_id : string;
  ev_timestamp : Z;
  ev_attackName : string;
  ev_attackType : string;
  ev_severity : Severity;
  ev_targetDeviceId : option string;
  ev_blocked : bool;
  ev_message : string
}.

Record Stats : Type := mkStats {
  totalAttacks : Z;
  blockedAttacks : Z;
  activeThreats : Z;
  attacksPerMinute : Z
}.

(** The state held by one instance of the hook: the five [useState] cells
    and the [attackTimestamps] ref. *)
Record Engine : Type := mkEngine {
  devices : list Device;
  activeAttacks : list Attack;
  protocolEnabled : bool;
  events : list Event;
  stats : Stats;
  attackTimestamps : list Z
}.

(** An action is a transition of the hook's state. *)
Definition Action : Type := Engine -> Engine.

Definition andThen (f g : Action) : Action := fun s => g (f s).
Notation "f ;; g" := (andThen f g) (at level 61, left associativity).

Definition skip : Action := fun s => s.

(** The [set...] functions, applied to an updater. *)
Definition setDevices (f : list Device -> list Device) : Action :=
  fun s => mkEngine (f (devices s)) (activeAttacks s) (protocolEnabled s)
                    (events s) (stats s) (attackTimestamps s).

Definition setActiveAttacks (f : list Attack -> list Attack) : Action :=
  fun s => mkEngine (devices s) (f (activeAttacks s)) (protocolEnabled s)
                    (events s) (stats s) (attackTimestamps s).

Definition setProtocolEnabled (f : bool -> bool) : Action :=
  fun s => mkEngine (devices s) (activeAttacks s) (f (protocolEnabled s))
                    (events s) (stats s) (attackTimestamps s).

Definition setEvents (f : list Event -> list Event) : Action :=
  fun s => mkEngine (devices s) (activeAttacks s) (protocolEnabled s)
                    (f (events s)) (stats s) (attackTimestamps s).

Definition setStats (f : Stats -> Stats) : Action :=
  fun s => mkEngine (devices s) (activeAttacks s) (protocolEnabled s)
                    (events s) (f (stats s)) (attackTimestamps s).

(** Assignment to [attackTimestamps.current]. *)
Definition setTimestamps (f : list Z -> list Z) : Action :=
  fun s => mkEngine (devices s) (activeAttacks s) (protocolEnabled s)
                    (events s) (stats s) (f (attackTimestamps s)).

Definition withStatus (st : Status) (d : Device) : Device :=
  mkDevice (info_of d) st.

Definition withBlocked (b : bool) (a : Attack) : Attack :=
  mkAttack (id a) (type a) (name a) (shortName a) (severity a) (color a)
           (targetDeviceId a) b (timestamp a).

(** [buildInitialDevices]. *)
Definition buildInitialDevices : list Device :=
  map (fun device => mkDevice device SECURE) Registry.devices.

(** The initial values given to [useState] and [useRef]. *)
Definition initialEngine : Engine :=
  mkEngine buildInitialDevices [] true [] (mkStats 0 0 0 0) [].

(** [pushEvent]: [[event, ...prev].slice(0, MAX_EVENTS)]. *)
Definition pushEvent (event : Event) : Action :=
  setEvents (fun prev => firstn MAX_EVENTS (event :: prev)).

(** [refreshStats], with the reading of [Date.now()] as [now]. *)
Definition refreshStats (attacks : list Attack) (total totalBlocked : Z)
    (now : Z) : Action :=
  setTimestamps (filter (fun t => now - t <? 60000)) ;;
  (fun s =>
     setStats (fun _ =>
       mkStats total totalBlocked
         (Z.of_nat (List.length (filter (fun a => negb (blocked a)) attacks)))
         (Z.of_nat (List.length (attackTimestamps s)))) s).

(** ** Actions *)

(** What one call of [startAttack] reads from its environment: the draw of
    [Math.random] in [randomElement], the two results of [generateId], the
    reading of [Date.now()] at the call and the later reading inside the
    stats updater. *)
Record StartEnv : Type := mkStartEnv {
  rnd : Q;
  attackId : string;
  eventId : string;
  now : Z;
  statsNow : Z
}.

Definition findDefinition (attackType : string) : option AttackDefinition :=
  find (fun a => String.eqb (def_id a) attackType) Registry.attackDefinitions.

(** The log entry written by [startAttack]. *)
Definition attackEvent (definition : AttackDefinition)
    (target : option string) (isBlocked : bool) (env : StartEnv) : Event :=
  mkEvent (eventId env) (now env) (def_name definition) (def_id definition)
    (def_severity definition) target isBlocked
    (if isBlocked
     then def_shortName definition ++ " attack on " ++ show_target target
          ++ " blocked by protocol."
     else def_shortName definition ++ " attack on " ++ show_target target
          ++ " succeeded!")%string.

(** The status an unblocked attack of the given severity writes. *)
Definition statusFor (sev : Severity) : Status :=
  if Severity_eqb sev critical then COMPROMISED else WARNING.

(** The stats updater of [startAttack]; it also prunes the rolling window. *)
Definition startStats (isBlocked : bool) (env : StartEnv) : Action :=
  let cutoff := statsNow env - 60000 in
  setTimestamps (filter (fun t => cutoff <? t)) ;;
  (fun s =>
     setStats (fun prev =>
       mkStats (totalAttacks prev + 1)
         (blockedAttacks prev + (if isBlocked then 1 else 0))
         (if isBlocked then activeThreats prev else activeThreats prev + 1)
         (Z.of_nat (List.length (attackTimestamps s)))) s).

Definition startAttack (attackType : string) (env : StartEnv) : Action :=
  fun s =>
    match findDefinition attackType with
    | None => s
    | Some definition =>
        let target := randomElement (rnd env) (def_targetDevices definition) in
        let isBlocked := protocolEnabled s in
        let attack :=
          mkAttack (attackId env) (def_id definition) (def_name definition)
            (def_shortName definition) (def_severity definition)
            (def_color definition) target isBlocked (now env) in
        (setTimestamps (fun ts => ts ++ [now env]) ;;
         setActiveAttacks (fun prev => prev ++ [attack]) ;;
         (if negb isBlocked
          then setDevices (map (fun d =>
                 if negb (opt_eqb (Some (id_of d)) target) then d
                 else withStatus (statusFor (def_severity definition)) d))
          else skip) ;;
         pushEvent (attackEvent definition target isBlocked env) ;;
         startStats isBlocked env) s
    end.

(** The updater [stopAttack] gives to [setActiveAttacks], together with the
    [setDevices] call nested in it. *)
Definition removeAttack (stoppedId : string) : Action :=
  fun s =>
    let prev := activeAttacks s in
    match find (fun a => String.eqb (id a) stoppedId) prev with
    | None => s
    | Some target =>
        let remaining :=
          filter (fun a => negb (String.eqb (id a) stoppedId)) prev in
        let stillTargeted :=
          existsb (fun a =>
            opt_eqb (targetDeviceId a) (targetDeviceId target)
            && negb (blocked a)) remaining in
        ((if negb (blocked target) && negb stillTargeted
          then setDevices (map (fun d =>
                 if opt_eqb (Some (id_of d)) (targetDeviceId target)
                 then withStatus SECURE d else d))
          else skip) ;;
         setActiveAttacks (fun _ => remaining)) s
    end.

Definition stopAttack (stoppedId : string) : Action :=
  removeAttack stoppedId ;;
  setStats (fun prev =>
    mkStats (totalAttacks prev) (blockedAttacks prev)
      (Z.max 0 (activeThreats prev - 1)) (attacksPerMinute prev)).

(** The two log entries of [toggleProtocol]. *)
Definition enabledEvent (eid : string) (t : Z) : Event :=
  mkEvent eid t "Protocol" "system" info None false
    "Security protocol ENABLED — all active threats neutralized.".

Definition disabledEvent (eid : string) (t : Z) : Event :=
  mkEvent eid t "Protocol" "system" high None false
    "Security protocol DISABLED — devices are now vulnerable.".

(** [toggleProtocol]; [eid] is the result of [generateId] and [t] the
    reading of [Date.now()]. *)
Definition toggleProtocol (eid : string) (t : Z) : Action :=
  fun s =>
    let next := negb (protocolEnabled s) in
    ((if next
      then
        setActiveAttacks (map (withBlocked true)) ;;
        setDevices (map (withStatus SECURE)) ;;
        setStats (fun st =>
          mkStats (totalAttacks st) (blockedAttacks st + activeThreats st)
            0 (attacksPerMinute st)) ;;
        pushEvent (enabledEvent eid t)
      else pushEvent (disabledEvent eid t)) ;;
     setProtocolEnabled (fun _ => next)) s.

Definition clearEvents : Action := setEvents (fun _ => []).

(** ** The attack-map feed ([useAttackMap]) *)

(** The weighted draw is given twice.  [totalWeight], [roulette] and
    [weightedRandomOrigin] read the source in exact arithmetic, with the
    weights as the decimal numbers written in the registry: this is the
    reading the specification takes.  [totalWeight64], [roulette64] and
    [weightedRandomOrigin64], further down, are the same lines with every
    operation in binary64, as the program runs them. *)

(** [origins.reduce((sum, o) => sum + o.weight, 0)]. *)
Definition totalWeight (origins : list Origin) : Q :=
  fold_left (fun sum o => sum + weight o)%Q origins 0%Q.

(** The [for] loop of [weightedRandomOrigin]: [None] when the loop runs to
    its end without returning. *)
Fixpoint roulette (roll : Q) (origins : list Origin) : option Origin :=
  match origins with
  | [] => None
  | origin :: rest =>
      let roll' := (roll - weight origin)%Q in
      if Qle_bool roll' 0 then Some origin else roulette roll' rest
  end.

(** [weightedRandomOrigin], with the draw of [Math.random] as [r].  The
    fallback reads [origins[origins.length - 1]], which is [undefined]
    ([None]) on the empty array. *)
Definition weightedRandomOrigin (r : Q) (origins : list Origin)
    : option Origin :=
  match roulette (r * totalWeight origins)%Q origins with
  | Some origin => Some origin
  | None => nth_error origins (List.length origins - 1)%nat
  end.

(** ** The weighted draw in binary64 *)

(** An integer as a binary64 number (exact below 2^53). *)
Definition Z2F (z : Z) : PrimFloat.float :=
  if z <? 0
  then PrimFloat.opp (PrimFloat.of_uint63 (Uint63.of_Z (- z)))
  else PrimFloat.of_uint63 (Uint63.of_Z z).

(** The binary64 number a decimal literal of the source denotes: the
    correctly rounded quotient of its numerator and denominator. *)
Definition toDouble (q : Q) : PrimFloat.float :=
  PrimFloat.div (Z2F (Qnum q)) (Z2F (Zpos (Qden q))).

(** [o.weight] as the program holds it. *)
Definition weight64 (o : Origin) : PrimFloat.float := toDouble (weight o).

(** [origins.reduce((sum, o) => sum + o.weight, 0)]. *)
Definition totalWeight64 (origins : list Origin) : PrimFloat.float :=
  fold_left (fun sum o => PrimFloat.add sum (weight64 o)) origins
    PrimFloat.zero.

(** The [for] loop: [roll -= origin.weight; if (roll <= 0) return origin]. *)
Fixpoint roulette64 (roll : PrimFloat.float) (origins : list Origin)
    : option Origin :=
  match origins with
  | [] => None
  | origin :: rest =>
      let roll' := PrimFloat.sub roll (weight64 origin) in
      if PrimFloat.leb roll' PrimFloat.zero then Some origin
      else roulette64 roll' rest
  end.

(** [weightedRandomOrigin] with the draw of [Math.random] as the binary64
    number [r]. *)
Definition weightedRandomOrigin64 (r : PrimFloat.float)
    (origins : list Origin) : option Origin :=
  match roulette64 (PrimFloat.mul r (totalWeight64 origins)) origins with
  | Some origin => Some origin
  | None => nth_error origins (List.length origins - 1)%nat
  end.

(** What is left of [roll] after the weights of [passed] have been
    subtracted from it in turn. *)
Definition remainder64 (roll : PrimFloat.float) (passed : list Origin)
    : PrimFloat.float :=
  fold_left (fun x o => PrimFloat.sub x (weight64 o)) passed roll.

(** The rational number a finite binary64 number is. *)
Definition exactValue (x : PrimFloat.float) : Q :=
  match FloatOps.Prim2SF x with
  | SpecFloat.S754_finite negative m e =>
      ((if negative then -1 else 1) * inject_Z (Zpos m) * Qpower 2 e)%Q
  | _ => 0%Q
  end.

(** The origins with the weights the program holds, as rationals. *)
Definition exactOrigins (origins : list Origin) : list Origin :=
  map (fun o => mkOrigin (country o) (lat o) (lng o)
                  (exactValue (weight64 o))) origins.

(** Two origins of weights 2 and -1: the total is positive. *)
Definition skewedOrigins : list Origin :=
  [mkOrigin "A" 0 0 2; mkOrigin "B" 0 0 (-1)]%Q.

(** ** The distribution layer ([context/SimulationContext.jsx]) *)

(** What a context slot may hold. *)
Inductive JsValue (V : Type) : Type :=
| JsNull
| JsUndefined
| JsObject (v : V).
Arguments JsNull {V}.
Arguments JsUndefined {V}.
Arguments JsObject {V} v.

(** A call either returns or throws an [Error] with a message. *)
Inductive Outcome (A : Type) : Type :=
| Returns (a : A)
| Throws (message : string).
Arguments Returns {A} a.
Arguments Throws {A} message.

(** [useContext]: the value of the nearest enclosing provider (the head of
    [providers], innermost first), or the default given to
    [createContext]. *)
Definition useContext {V : Type} (defaultValue : JsValue V)
    (providers : list (JsValue V)) : JsValue V :=
  match providers with
  | [] => defaultValue
  | value :: _ => value
  end.

Definition missingProviderMessage : string :=
  ("useSimulationContext must be used within a <SimulationProvider>. " ++
   "Wrap your component tree with <Layout> or <SimulationProvider>.")%string.

(** [useSimulationContext], for a consumer rendered under [providers];
    [SimulationContext] is [createContext(null)]. *)
Definition useSimulationContext {V : Type} (providers : list (JsValue V))
    : Outcome (JsValue V) :=
  let context := useContext JsNull providers in
  match context with
  | JsNull => Throws missingProviderMessage
  | _ => Returns context
  end.

(** Whether [needle] occurs in [hay]. *)
Fixpoint occursIn (needle hay : string) : bool :=
  String.prefix needle hay ||
  match hay with
  | EmptyString => false
  | String _ rest => occursIn needle rest
  end.

(** ** Runs of the engine *)

(** A call of one of the four actions, with what it reads from its
    environment. *)
Inductive Op : Type :=
| StartAttack (attackType : string) (env : StartEnv)
| StopAttack (stoppedId : string)
| ToggleProtocol (eid : string) (t : Z)
| ClearEvents.

Definition step (op : Op) : Action :=
  match op with
  | StartAttack attackType env => startAttack attackType env
  | StopAttack stoppedId => stopAttack stoppedId
  | ToggleProtocol eid t => toggleProtocol eid t
  | ClearEvents => clearEvents
  end.

Definition exec (ops : list Op) (s : Engine) : Engine :=
  fold_left (fun s op => step op s) ops s.

(** The engine together with a record of its run that the code does not
    keep: the last reading of the clock, every timestamp [startAttack]
    recorded, and every entry logged since the log was last cleared (both
    oldest first). *)
Record World : Type := mkWorld {
  engine : Engine;
  wallClock : Z;
  recorded : list Z;
  journal : list Event
}.

Definition initialWorld : World := mkWorld initialEngine 0 [] [].

Definition observe (op : Op) (w : World) : World :=
  let s := engine w in
  match op with
  | StartAttack attackType env =>
      match findDefinition attackType with
      | None => mkWorld (step op s) (wallClock w) (recorded w) (journal w)
      | Some definition =>
          mkWorld (step op s) (statsNow env) (recorded w ++ [now env])
            (journal w ++
             [attackEvent definition
                (randomElement (rnd env) (def_targetDevices definition))
                (protocolEnabled s) env])
      end
  | StopAttack _ => mkWorld (step op s) (wallClock w) (recorded w) (journal w)
  | ToggleProtocol eid t =>
      mkWorld (step op s) t (recorded w)
        (journal w ++
         [if protocolEnabled s then disabledEvent eid t
          else enabledEvent eid t])
  | ClearEvents => mkWorld (step op s) (wallClock w) (recorded w) []
  end.

Definition run_from (w : World) (ops : list Op) : World :=
  fold_left (fun w op => observe op w) ops w.

Definition run (ops : list Op) : World := run_from initialWorld ops.

(** The identifier is not the id of an active attack. *)
Definition fresh (i : string) (attacks : list Attack) : bool :=
  negb (existsb (fun a => String.eqb (id a) i) attacks).

(** What the environment guarantees for one call: [Math.random] is in
    [[0, 1)], the readings of [Date.now()] do not decrease, and
    [generateId] does not repeat the id of an active attack. *)
Definition op_ok (w : World) (op : Op) : bool :=
  match op with
  | StartAttack attackType env =>
      match findDefinition attackType with
      | None => true
      | Some _ =>
          Qle_bool 0 (rnd env) && negb (Qle_bool 1 (rnd env))
          && (wallClock w <=? now env) && (now env <=? statsNow env)
          && fresh (attackId env) (activeAttacks (engine w))
      end
  | ToggleProtocol _ t => wallClock w <=? t
  | StopAttack _ | ClearEvents => true
  end.

Fixpoint admissible_from (w : World) (ops : list Op) : bool :=
  match ops with
  | [] => true
  | op :: rest => op_ok w op && admissible_from (observe op w) rest
  end.

(** The runs of the engine from its initial state. *)
Definition admissible (ops : list Op) : bool :=
  admissible_from initialWorld ops.

(** ** What the specification says, in its own words *)

(** A device is hit by an attack that is not blocked and targets it. *)
Definition hits (d : Device) (a : Attack) : bool :=
  negb (blocked a) && opt_eqb (targetDeviceId a) (Some (id_of d)).

(** The status the specification derives from the active attacks:
    [COMPROMISED] when an unblocked attack of critical severity targets the
    device, [WARNING] when only others do, [SECURE] when none does. *)
Definition expectedStatus (s : Engine) (d : Device) : Status :=
  match filter (hits d) (activeAttacks s) with
  | [] => SECURE
  | a :: l =>
      if existsb (fun a => Severity_eqb (severity a) critical) (a :: l)
      then COMPROMISED else WARNING
  end.

Definition status_consistent (s : Engine) : Prop :=
  forall d, In d (devices s) -> status d = expectedStatus s d.

(** An entry comes before every entry that is not newer than it. *)
Definition newerFirst (e e' : Event) : Prop :=
  ev_timestamp e' <= ev_timestamp e.

(** The number of active attacks that are not blocked. *)
Definition unblockedCount (s : Engine) : Z :=
  Z.of_nat (List.length (filter (fun a => negb (blocked a)) (activeAttacks s))).

(** The cumulative-weight reading of the roulette: the first origin whose
    cumulative weight reaches [x], scanning with the running sum [acc]. *)
Fixpoint firstReaching (x acc : Q) (origins : list Origin) : option Origin :=
  match origins with
  | [] => None
  | origin :: rest =>
      let acc' := (acc + weight origin)%Q in
      if Qle_bool x acc' then Some origin else firstReaching x acc' rest
  end.

(** The sum of the weights of a segment of the list. *)
Definition cumulative (origins : list Origin) : Q :=
  fold_right (fun o sum => weight o + sum)%Q 0%Q origins.

(** ** Invariants of the runs *)

(** The log is the newest [MAX_EVENTS] entries of the journal, newest first,
    its timestamps do not increase from the head on, and none is later than
    the last reading of the clock. *)
Definition log_inv (w : World) : Prop :=
  events (engine w) = firstn MAX_EVENTS (rev (journal w)) /\
  StronglySorted newerFirst (events (engine w)) /\
  Forall (fun e => ev_timestamp e <= wallClock w) (events (engine w)).

(** The window is what some cutoff, at least 60 seconds before the last
    reading of the clock, keeps of all the recorded timestamps. *)
Definition window_inv (w : World) : Prop :=
  exists K, K <= wallClock w - 60000 /\
    attackTimestamps (engine w) = filter (fun t => K <? t) (recorded w).

(** The device shows [SECURE]. *)
Definition isSecure (d : Device) : bool :=
  match status d with
  | SECURE => true
  | _ => false
  end.

(** The ids of the active attacks are pairwise distinct, and a device of the
    list is not secure exactly when an active attack hits it. *)
Definition status_inv (s : Engine) : Prop :=
  NoDup (map id (activeAttacks s)) /\
  forall d, In d (devices s) ->
            negb (isSecure d) = existsb (hits d) (activeAttacks s).

(** The status writes of a run from [s], oldest first: for every call of
    [startAttack] that found its definition while the protocol was off, the
    target it drew (when it drew one) with the definition's severity. *)
Fixpoint unblockedStarts (s : Engine) (ops : list Op)
    : list (string * Severity) :=
  match ops with
  | [] => []
  | op :: rest =>
      match op with
      | StartAttack attackType env =>
          match findDefinition attackType with
          | Some definition =>
              if protocolEnabled s then []
              else match randomElement (rnd env)
                           (def_targetDevices definition) with
                   | Some target => [(target, def_severity definition)]
                   | None => []
                   end
          | None => []
          end
      | _ => []
      end ++ unblockedStarts (step op s) rest
  end.

(** The severity of the latest of these writes against a device. *)
Definition latestWrite (writes : list (string * Severity))
    (deviceId : string) : option Severity :=
  match find (fun w => String.eqb (fst w) deviceId) (rev writes) with
  | Some w => Some (snd w)
  | None => None
  end.

(** Every device that is not secure shows what the latest write against it
    wrote. *)
Definition write_inv (s : Engine) (writes : list (string * Severity))
    : Prop :=
  forall d, In d (devices s) -> status d <> SECURE ->
    exists sev, latestWrite writes (id_of d) = Some sev /\
                status d = statusFor sev.

(** ** Sample runs *)

(** A run in which a critical and then a high-severity attack succeed
    against the camera, and the second one is stopped. *)
Definition cameraRun : list Op :=
  [ToggleProtocol "t0" 500;
   StartAttack "man_in_the_middle" (mkStartEnv (1 # 2) "a1" "e1" 1000 1000);
   StartAttack "brute_force" (mkStartEnv 0 "a2" "e2" 2000 2000);
   StopAttack "a2"].

(** Two attacks succeed while the protocol is off; the first is stopped
    twice. *)
Definition doubleStopRun : list Op :=
  [ToggleProtocol "t0" 500;
   StartAttack "firmware_exploit" (mkStartEnv 0 "a1" "e1" 1000 1000);
   StartAttack "replay_attack" (mkStartEnv 0 "a2" "e2" 2000 2000);
   StopAttack "a1"].

(** A blocked attack is followed, with the protocol off, by one that
    succeeds; the blocked one is then stopped. *)
Definition stopBlockedRun : list Op :=
  [StartAttack "denial_of_service" (mkStartEnv 0 "b1" "e1" 1000 1000);
   ToggleProtocol "t0" 1500;
   StartAttack "firmware_exploit" (mkStartEnv 0 "a1" "e2" 2000 2000);
   StopAttack "b1"].

(** A run that logs [n] protocol toggles, one per millisecond. *)
Definition toggles (n : nat) : list Op :=
  map (fun k => ToggleProtocol "t" (Z.of_nat k)) (seq 0 n).

(** ** More of [utils/helpers.js] *)

(** [randomBetween(min, max)] on integer bounds:
    [Math.floor(Math.random() * (max - min + 1)) + min], with the draw of
    [Math.random] as [r]. *)
Definition randomBetween (r : Q) (min max : Z) : Z :=
  Qfloor (r * inject_Z (max - min + 1)) + min.

(** [n.toString(16)] on an integer: lower-case digits, a minus sign for a
    negative number. *)
Definition toString16 (n : Z) : string :=
  NilZero.string_of_int (Z.to_hex_int n).

(** [generateId]: [Array.from({ length: 16 }, ...)] calls its function for
    the indices 0 to 15, each call making one draw ([draw k] is the draw of
    the call for index [k]); [join('')] concatenates the results. *)
Definition generateId (draw : nat -> Q) : string :=
  String.concat ""
    (map (fun k => toString16 (Qfloor (draw k * 16))) (seq 0 16)).

Definition isHexDigit (c : ascii) : bool :=
  existsb (Ascii.eqb c) (list_ascii_of_string "0123456789abcdef").

(** ** The rest of the engine's hook and its callers *)

(** The callback of the engine's timer: [randomElement(attackDefinitions)],
    then [startAttack(definition.id)].  Reading [.id] of [undefined] throws
    a [TypeError], here [None]. *)
Definition autoAttack (definitionDraw : Q) (env : StartEnv) (s : Engine)
    : option Engine :=
  match randomElement definitionDraw Registry.attackDefinitions with
  | Some definition => Some (startAttack (def_id definition) env s)
  | None => None
  end.

(** The delay the engine's timer waits: [randomBetween(2000, 4000)]. *)
Definition autoDelay (r : Q) : Z := randomBetween r 2000 4000.

(** [stopAllAttacks] of the home page:
    [activeAttacks.forEach((attack) => stopAttack(attack.id))], over the
    list the page was rendered with. *)
Definition stopAllAttacks (s : Engine) : Engine :=
  fold_left (fun acc attack => stopAttack (id attack) acc) (activeAttacks s) s.

(** [MAX_VISIBLE] and [visibleEvents] of the dashboard's [EventLog]:
    [events.slice(0, MAX_VISIBLE)]. *)
Definition MAX_VISIBLE : nat := 30.

Definition visibleEvents (log : list Event) : list Event :=
  firstn MAX_VISIBLE log.

(** The threat level [Layout] derives from the stats. *)
Definition threatLevel (st : Stats) : string :=
  if 4 <=? activeThreats st then "critical"
  else if 2 <=? activeThreats st then "high"
  else if 1 <=? activeThreats st then "medium"
  else "low".

Record RiskMeta : Type := mkRiskMeta {
  risk_label : string;
  risk_value : Z;
  risk_color : string;
  risk_trend : string
}.

(** [deriveRiskMeta] of the dashboard page. *)
Definition deriveRiskMeta (st : Stats) (enabled : bool) : RiskMeta :=
  if enabled && (activeThreats st =? 0)
  then mkRiskMeta "Low" 1 "#00ff88" "down"
  else if activeThreats st <=? 2
  then mkRiskMeta "Medium" 2 "#ff9900" "stable"
  else if activeThreats st <=? 4
  then mkRiskMeta "High" 3 "#ff3366" "up"
  else mkRiskMeta "Critical" 4 "#ff0044" "up".

(** [Math.round]: the nearest integer, a half rounding up. *)
Definition mathRound (x : Q) : Z := Qfloor (x + (1 # 2)).

(** [blockedRate] of the dashboard page. *)
Definition blockedRate (st : Stats) : Z :=
  if totalAttacks st =? 0 then 100
  else mathRound
         (inject_Z (blockedAttacks st) / inject_Z (totalAttacks st) * 100).

(** ** The rest of the attack-map feed ([useAttackMap]) *)

Definition MAX_LINES : nat := 20.

Record LineFrom : Type := mkLineFrom {
  from_lat : Q;
  from_lng : Q;
  from_country : string
}.

Record Target : Type := mkTarget {
  target_lat : Q;
  target_lng : Q;
  city : string
}.

(** [targetLocation] of [data/attacks.js]. *)
Definition targetLocation : Target :=
  mkTarget (511 # 10) (714 # 10) "Astana, Kazakhstan".

Record AttackLine : Type := mkAttackLine {
  line_id : string;
  line_from : LineFrom;
  line_to : Target;
  line_type : string;
  line_name : string;
  line_severity : Severity;
  line_color : string;
  line_timestamp : Z;
  line_blocked : bool
}.

(** The [counters] ref. *)
Record Counters : Type := mkCounters {
  cnt_total : Z;
  cnt_blocked : Z
}.

(** What one call of [createAttackLine] reads from its environment. *)
Record LineEnv : Type := mkLineEnv {
  originDraw : Q;
  definitionDraw : Q;
  lineId : string;
  lineNow : Z
}.

(** The object [createAttackLine] returns; building it reads properties of
    [origin] and [definition], which throws a [TypeError] ([None]) when
    either is [undefined]. *)
Definition lineOf (enabled : bool) (env : LineEnv) : option AttackLine :=
  match weightedRandomOrigin (originDraw env) Registry.attackOrigins,
        randomElement (definitionDraw env) Registry.attackDefinitions with
  | Some origin, Some definition =>
      Some (mkAttackLine (lineId env)
              (mkLineFrom (lat origin) (lng origin) (country origin))
              targetLocation (def_id definition) (def_shortName definition)
              (def_severity definition) (def_color definition)
              (lineNow env) enabled)
  | _, _ => None
  end.

(** [createAttackLine]: the counters are advanced before the object is
    built. *)
Definition createAttackLine (enabled : bool) (env : LineEnv) (c : Counters)
    : Counters * option AttackLine :=
  (mkCounters (cnt_total c + 1)
     (if enabled then cnt_blocked c + 1 else cnt_blocked c),
   lineOf enabled env).

(** [next.length > MAX_LINES ? next.slice(-MAX_LINES) : next]. *)
Definition trimLines (next : list AttackLine) : list AttackLine :=
  if (MAX_LINES <? List.length next)%nat
  then skipn (List.length next - MAX_LINES) next
  else next.

(** The state of one instance of [useAttackMap]. *)
Record Feed : Type := mkFeed {
  attackLines : list AttackLine;
  counters : Counters
}.

Definition initialFeed : Feed := mkFeed [] (mkCounters 0 0).

(** One firing of the feed's timer, under the protocol flag the hook was
    last rendered with.  When [createAttackLine] throws, the updater does
    not return and the list is left as it was. *)
Definition tick (enabled : bool) (env : LineEnv) (f : Feed) : Feed :=
  let (c', created) := createAttackLine enabled env (counters f) in
  match created with
  | Some line => mkFeed (trimLines (attackLines f ++ [line])) c'
  | None => mkFeed (attackLines f) c'
  end.

Record MapStats : Type := mkMapStats {
  ms_total : Z;
  ms_blocked : Z;
  ms_activeThreats : Z
}.

(** The [stats] object the hook returns. *)
Definition feedStats (f : Feed) : MapStats :=
  mkMapStats (cnt_total (counters f)) (cnt_blocked (counters f))
    (Z.of_nat
       (List.length (filter (fun line => negb (line_blocked line))
                       (attackLines f)))).

Definition feedRun (ticks : list (bool * LineEnv)) : Feed :=
  fold_left (fun f t => tick (fst t) (snd t) f) ticks initialFeed.

(** The lines created during a run of the feed, oldest first. *)
Definition createdLines (ticks : list (bool * LineEnv)) : list AttackLine :=
  flat_map (fun t => match lineOf (fst t) (snd t) with
                     | Some line => [line]
                     | None => []
                     end) ticks.

(** One firing of the feed's timer, in either build.  In a production
    build the updater given to [setAttackLines] is invoked once.  In a
    development build under [React.StrictMode], which [main.jsx] mounts, it
    is invoked twice on the same list: both invocations call
    [createAttackLine], so the counters advance twice, and one of the two
    results ([keepFirst] says which) is kept as the new list. *)
Inductive Firing : Type :=
| Once (enabled : bool) (env : LineEnv)
| Twice (enabled : bool) (env1 env2 : LineEnv) (keepFirst : bool).

Definition tickStrict (enabled : bool) (env1 env2 : LineEnv)
    (keepFirst : bool) (f : Feed) : Feed :=
  let (c1, created1) := createAttackLine enabled env1 (counters f) in
  let (c2, created2) := createAttackLine enabled env2 c1 in
  match (if keepFirst then created1 else created2) with
  | Some line => mkFeed (trimLines (attackLines f ++ [line])) c2
  | None => mkFeed (attackLines f) c2
  end.

Definition fire (x : Firing) (f : Feed) : Feed :=
  match x with
  | Once enabled env => tick enabled env f
  | Twice enabled env1 env2 keepFirst =>
      tickStrict enabled env1 env2 keepFirst f
  end.

(** How often a firing calls [createAttackLine], and under which flag. *)
Definition invocations (x : Firing) : nat :=
  match x with
  | Once _ _ => 1
  | Twice _ _ _ _ => 2
  end.

Definition flagOf (x : Firing) : bool :=
  match x with
  | Once enabled _ => enabled
  | Twice enabled _ _ _ => enabled
  end.

Definition isOnce (x : Firing) : bool :=
  match x with
  | Once _ _ => true
  | Twice _ _ _ _ => false
  end.

Definition feedRunIn (firings : list Firing) : Feed :=
  fold_left (fun f x => fire x f) firings initialFeed.

(** The calls of [createAttackLine] in a run, and those made while the
    protocol flag was on. *)
Definition calls (firings : list Firing) : nat :=
  list_sum (map invocations firings).

Definition blockedCalls (firings : list Firing) : nat :=
  list_sum (map (fun x => if flagOf x then invocations x else 0%nat)
              firings).

(** The delay the feed's timer waits: [randomBetween(1000, 3000)]. *)
Definition feedDelay (r : Q) : Z := randomBetween r 1000 3000.

(** ** Further invariants of the engine *)

(** While the protocol is on, nothing is compromised: every device is
    secure, every active attack is blocked and no threat is counted. *)
Definition enabled_inv (s : Engine) : Prop :=
  protocolEnabled s = true ->
  (forall d, In d (devices s) -> status d = SECURE) /\
  (forall a, In a (activeAttacks s) -> blocked a = true) /\
  activeThreats (stats s) = 0.

(** The counters are non-negative and consistent with each other. *)
Definition stats_inv (s : Engine) : Prop :=
  0 <= activeThreats (stats s) /\
  0 <= blockedAttacks (stats s) /\
  blockedAttacks (stats s) + activeThreats (stats s)
    <= totalAttacks (stats s) /\
  0 <= attacksPerMinute (stats s) <= totalAttacks (stats s) /\
  Z.of_nat (List.length (attackTimestamps s)) <= totalAttacks (stats s).

(** Every active attack is an instance of a registered definition and
    targets a registered device of that definition's pool. *)
Definition target_inv (s : Engine) : Prop :=
  forall a, In a (activeAttacks s) ->
    exists definition d,
      findDefinition (type a) = Some definition /\
      severity a = def_severity definition /\
      targetDeviceId a = Some d /\
      In d (def_targetDevices definition) /\
      In d (map dev_id Registry.devices).

(** The ids of the active attacks are distinct and the threat counter
    does not exceed the number of unblocked active attacks. *)
Definition threats_inv (s : Engine) : Prop :=
  NoDup (map id (activeAttacks s)) /\
  activeThreats (stats s) <= unblockedCount s.

(** An attack comes before every attack that did not start earlier. *)
Definition olderFirst (a b : Attack) : Prop := timestamp a <= timestamp b.

(** The frame of a stop: what [stopAttack] never touches. *)
Definition same_frame (s s' : Engine) : Prop :=
  protocolEnabled s' = protocolEnabled s /\
  events s' = events s /\
  attackTimestamps s' = attackTimestamps s /\
  totalAttacks (stats s') = totalAttacks (stats s) /\
  blockedAttacks (stats s') = blockedAttacks (stats s) /\
  attacksPerMinute (stats s') = attacksPerMinute (stats s) /\
  map info_of (devices s') = map info_of (devices s).

(** The active attacks are listed oldest first and none is later than the
    last reading of the clock. *)
Definition order_inv (w : World) : Prop :=
  StronglySorted olderFirst (activeAttacks (engine w)) /\
  Forall (fun a => timestamp a <= wallClock w) (activeAttacks (engine w)).

Definition isStop (op : Op) : bool :=
  match op with
  | StopAttack _ => true
  | _ => false
  end.

(** * Properties *)

(** ** The initial state *)

(** C10. Right after initialisation the protocol flag is true, the six
    registry devices are present and all secure, the active-attack list, the
    event log and the timestamp window are empty, and the four stats are 0;
    hence a first attack of any registered type is created blocked. *)
Theorem initial_engine_state :
  protocolEnabled initialEngine = true /\
  map info_of (devices initialEngine) = Registry.devices /\
  map id_of (devices initialEngine) =
    ["router-01"; "camera-01"; "lock-01"; "thermostat-01"; "motion-01";
     "light-01"] /\
  map status (devices initialEngine) =
    [SECURE; SECURE; SECURE; SECURE; SECURE; SECURE] /\
  activeAttacks initialEngine = [] /\
  events initialEngine = [] /\
  attackTimestamps initialEngine = [] /\
  stats initialEngine = mkStats 0 0 0 0 /\
  forall env,
    map (fun def =>
           map blocked
             (activeAttacks (startAttack (def_id def) env initialEngine)))
        Registry.attackDefinitions
    = [[true]; [true]; [true]; [true]; [true]; [true]].
Proof.
  repeat split; reflexivity.
Qed.

(** ** The distribution layer *)

(** C8. A consumer with no provider above it gets an exception whose message
    names the missing [<SimulationProvider>]; the same happens under a
    provider that publishes [null]; under a provider that publishes any
    other value the consumer gets exactly that value. *)
Theorem read_before_publish_throws (V : Type) :
  useSimulationContext (V := V) [] = Throws missingProviderMessage /\
  occursIn "<SimulationProvider>" missingProviderMessage = true /\
  (forall a, useSimulationContext (V := V) [] <> Returns a) /\
  (forall (value : JsValue V) outer,
      value <> JsNull ->
      useSimulationContext (value :: outer) = Returns value).
Proof.
  split; [reflexivity|].
  split; [reflexivity|].
  split; [discriminate|].
  intros value outer Hnn.
  destruct value; [congruence | reflexivity | reflexivity].
Qed.

Lemma read_before_publish_throws_witness :
  useSimulationContext (JsObject initialEngine :: []) =
  Returns (JsObject initialEngine).
Proof.
  apply (proj2 (proj2 (proj2 (read_before_publish_throws Engine)))).
  discriminate.
Defined.

(** ** Soft failure of [startAttack] *)

Lemma findDefinition_unknown attackType :
  ~ In attackType (map def_id Registry.attackDefinitions) ->
  findDefinition attackType = None.
Proof.
  intros Hnot. unfold findDefinition.
  destruct (find _ _) as [definition|] eqn:Hfind; [|reflexivity].
  apply find_some in Hfind. destruct Hfind as [Hin Heq].
  apply String.eqb_eq in Heq. exfalso. apply Hnot.
  rewrite <- Heq. now apply in_map.
Qed.

(** C7. For an attack type that is the id of no registered definition,
    [startAttack] returns the state it was given: devices, active attacks,
    event log, stats and timestamp window are all unchanged.  (The model's
    actions are total functions, so no exception is raised.) *)
Theorem startAttack_unknown_type (attackType : string) (env : StartEnv)
    (s : Engine) :
  ~ In attackType (map def_id Registry.attackDefinitions) ->
  startAttack attackType env s = s.
Proof.
  intros Hnot. unfold startAttack.
  now rewrite (findDefinition_unknown _ Hnot).
Qed.

Lemma startAttack_unknown_type_witness :
  startAttack "port_scan" (mkStartEnv (1 # 2) "a1" "e1" 1000 1001)
    initialEngine = initialEngine.
Proof.
  apply startAttack_unknown_type.
  simpl. intros H.
  repeat (destruct H as [H|H]; [discriminate H|]). exact H.
Defined.

(** ** Toggling the protocol on *)

(** C2. From any state whose protocol flag is false, one [toggleProtocol]
    sets the flag, leaves no active threat in the stats, makes every device
    secure and every active attack blocked.  The devices and the attacks are
    those of the prior state, in the same order: each device keeps its
    registry data and only its status is set, each attack keeps its id,
    type, severity, target and timestamp and only its [blocked] field is
    set.  The threats just neutralised are added to [blockedAttacks]; the
    other counters and the timestamp window are untouched. *)
Theorem toggle_on_convergence (eid : string) (t : Z) (s : Engine) :
  protocolEnabled s = false ->
  let s' := toggleProtocol eid t s in
  protocolEnabled s' = true /\
  activeThreats (stats s') = 0 /\
  (forall d, In d (devices s') -> status d = SECURE) /\
  (forall a, In a (activeAttacks s') -> blocked a = true) /\
  devices s' = map (fun d => mkDevice (info_of d) SECURE) (devices s) /\
  activeAttacks s' =
    map (fun a => mkAttack (id a) (type a) (name a) (shortName a)
                    (severity a) (color a) (targetDeviceId a) true
                    (timestamp a))
        (activeAttacks s) /\
  map info_of (devices s') = map info_of (devices s) /\
  List.length (activeAttacks s') = List.length (activeAttacks s) /\
  totalAttacks (stats s') = totalAttacks (stats s) /\
  blockedAttacks (stats s') =
    blockedAttacks (stats s) + activeThreats (stats s) /\
  attacksPerMinute (stats s') = attacksPerMinute (stats s) /\
  attackTimestamps s' = attackTimestamps s.
Proof.
  intros Hoff. unfold toggleProtocol. rewrite Hoff. cbn.
  split; [reflexivity|]. split; [reflexivity|].
  split.
  { intros d Hd. apply in_map_iff in Hd. destruct Hd as [d0 [<- _]].
    reflexivity. }
  split.
  { intros a Ha. apply in_map_iff in Ha. destruct Ha as [a0 [<- _]].
    reflexivity. }
  split; [reflexivity|]. split; [reflexivity|].
  split; [rewrite map_map; reflexivity|].
  split; [apply length_map|].
  repeat split; reflexivity.
Qed.

Lemma toggle_on_convergence_witness :
  let s := exec [ToggleProtocol "t0" 500;
                 StartAttack "firmware_exploit"
                   (mkStartEnv (1 # 2) "a1" "e1" 1000 1001)] initialEngine in
  protocolEnabled s = false /\
  let s' := toggleProtocol "t1" 2000 s in
  protocolEnabled s' = true /\
  activeThreats (stats s') = 0 /\
  (forall d, In d (devices s') -> status d = SECURE) /\
  (forall a, In a (activeAttacks s') -> blocked a = true) /\
  devices s' = map (fun d => mkDevice (info_of d) SECURE) (devices s) /\
  activeAttacks s' =
    map (fun a => mkAttack (id a) (type a) (name a) (shortName a)
                    (severity a) (color a) (targetDeviceId a) true
                    (timestamp a))
        (activeAttacks s) /\
  map info_of (devices s') = map info_of (devices s) /\
  List.length (activeAttacks s') = List.length (activeAttacks s) /\
  totalAttacks (stats s') = totalAttacks (stats s) /\
  blockedAttacks (stats s') =
    blockedAttacks (stats s) + activeThreats (stats s) /\
  attacksPerMinute (stats s') = attacksPerMinute (stats s) /\
  attackTimestamps s' = attackTimestamps s.
Proof.
  split; [reflexivity|].
  apply toggle_on_convergence. reflexivity.
Defined.

(** ** Runs: general facts *)

(** Closed facts about a concrete run are settled by evaluation. *)
Ltac evaluate := vm_compute; reflexivity.

Ltac split_all := repeat match goal with |- _ /\ _ => split end.

Lemma engine_observe (op : Op) (w : World) :
  engine (observe op w) = step op (engine w).
Proof.
  destruct op as [attackType env| | |]; unfold observe; try reflexivity.
  destruct (findDefinition attackType); reflexivity.
Qed.

Lemma engine_run_from (ops : list Op) :
  forall w, engine (run_from w ops) = exec ops (engine w).
Proof.
  induction ops as [|op ops IH]; intros w; [reflexivity|].
  change (run_from w (op :: ops)) with (run_from (observe op w) ops).
  change (exec (op :: ops) (engine w)) with (exec ops (step op (engine w))).
  rewrite IH, engine_observe. reflexivity.
Qed.

Lemma run_from_app (ops1 ops2 : list Op) (w : World) :
  run_from w (ops1 ++ ops2) = run_from (run_from w ops1) ops2.
Proof. unfold run_from. apply fold_left_app. Qed.

Lemma admissible_from_app (ops1 ops2 : list Op) :
  forall w,
    admissible_from w (ops1 ++ ops2) =
    admissible_from w ops1 && admissible_from (run_from w ops1) ops2.
Proof.
  induction ops1 as [|op ops1 IH]; intros w; [reflexivity|].
  change (run_from w (op :: ops1)) with (run_from (observe op w) ops1).
  cbn [app admissible_from]. rewrite IH. now rewrite andb_assoc.
Qed.

(** A property of the initial world that every admissible call preserves
    holds after every admissible run. *)
Lemma admissible_run_ind (P : World -> Prop) :
  P initialWorld ->
  (forall w op, P w -> op_ok w op = true -> P (observe op w)) ->
  forall ops, admissible ops = true -> P (run ops).
Proof.
  intros Hinit Hstep ops. unfold admissible, run.
  generalize initialWorld Hinit. clear Hinit.
  induction ops as [|op ops IH]; intros w Hw Hadm; [exact Hw|].
  cbn [admissible_from] in Hadm.
  apply andb_true_iff in Hadm. destruct Hadm as [Hok Hrest].
  change (run_from w (op :: ops)) with (run_from (observe op w) ops).
  apply IH; [apply Hstep; assumption | exact Hrest].
Qed.

(** What [op_ok] says of a call of [startAttack] with a registered type. *)
Lemma op_ok_start (w : World) (attackType : string) (env : StartEnv)
    (definition : AttackDefinition) :
  findDefinition attackType = Some definition ->
  op_ok w (StartAttack attackType env) = true ->
  (0 <= rnd env)%Q /\ (rnd env < 1)%Q /\
  wallClock w <= now env /\ now env <= statsNow env /\
  fresh (attackId env) (activeAttacks (engine w)) = true.
Proof.
  intros Hdef Hok. unfold op_ok in Hok. rewrite Hdef in Hok.
  repeat (apply andb_true_iff in Hok; destruct Hok as [Hok ?]).
  split; [now apply Qle_bool_iff|].
  split.
  { apply Qnot_le_lt. intros Hle. apply Qle_bool_iff in Hle.
    rewrite Hle in *. discriminate. }
  repeat split; try (apply Z.leb_le; assumption); assumption.
Qed.

(** ** The actions, component by component *)

Section StartAttackEquations.

Variables (attackType : string) (env : StartEnv).
Variable definition : AttackDefinition.
Hypothesis Hdef : findDefinition attackType = Some definition.

Let target := randomElement (rnd env) (def_targetDevices definition).

Lemma startAttack_protocolEnabled (s : Engine) :
  protocolEnabled (startAttack attackType env s) = protocolEnabled s.
Proof.
  destruct s as [devs atks [|] evs st ts];
    unfold startAttack; rewrite Hdef; reflexivity.
Qed.

Lemma startAttack_activeAttacks (s : Engine) :
  activeAttacks (startAttack attackType env s) =
  activeAttacks s ++
  [mkAttack (attackId env) (def_id definition) (def_name definition)
     (def_shortName definition) (def_severity definition)
     (def_color definition) target (protocolEnabled s) (now env)].
Proof.
  destruct s as [devs atks [|] evs st ts];
    unfold startAttack; rewrite Hdef; reflexivity.
Qed.

Lemma startAttack_devices (s : Engine) :
  devices (startAttack attackType env s) =
  if protocolEnabled s then devices s
  else map (fun d =>
              if opt_eqb (Some (id_of d)) target
              then withStatus (statusFor (def_severity definition)) d
              else d) (devices s).
Proof.
  destruct s as [devs atks [|] evs st ts];
    unfold startAttack; rewrite Hdef; [reflexivity|].
  cbn. apply map_ext. intros d.
  unfold target.
  destruct (randomElement (rnd env) (def_targetDevices definition))
    as [y|]; cbn; [|reflexivity].
  destruct (String.eqb (id_of d) y); reflexivity.
Qed.

Lemma startAttack_events (s : Engine) :
  events (startAttack attackType env s) =
  firstn MAX_EVENTS
    (attackEvent definition target (protocolEnabled s) env :: events s).
Proof.
  destruct s as [devs atks [|] evs st ts];
    unfold startAttack; rewrite Hdef; reflexivity.
Qed.

Lemma startAttack_attackTimestamps (s : Engine) :
  attackTimestamps (startAttack attackType env s) =
  filter (fun t => statsNow env - 60000 <? t)
    (attackTimestamps s ++ [now env]).
Proof.
  destruct s as [devs atks [|] evs st ts];
    unfold startAttack; rewrite Hdef; reflexivity.
Qed.

Lemma startAttack_stats (s : Engine) :
  stats (startAttack attackType env s) =
  mkStats (totalAttacks (stats s) + 1)
    (blockedAttacks (stats s) + (if protocolEnabled s then 1 else 0))
    (if protocolEnabled s then activeThreats (stats s)
     else activeThreats (stats s) + 1)
    (Z.of_nat (List.length
       (filter (fun t => statsNow env - 60000 <? t)
          (attackTimestamps s ++ [now env])))).
Proof.
  destruct s as [devs atks [|] evs st ts];
    unfold startAttack; rewrite Hdef; reflexivity.
Qed.

End StartAttackEquations.

Section StopAttackEquations.

Variable stoppedId : string.

Let isStopped (a : Attack) : bool := String.eqb (id a) stoppedId.

Lemma find_none_filter (l : list Attack) :
  find isStopped l = None ->
  filter (fun a => negb (isStopped a)) l = l.
Proof.
  induction l as [|a l IH]; [reflexivity|].
  cbn. destruct (isStopped a); [discriminate|].
  intros Hnone. cbn. now rewrite IH.
Qed.

Lemma removeAttack_stale (s : Engine) :
  find isStopped (activeAttacks s) = None -> removeAttack stoppedId s = s.
Proof.
  intros Hnone. unfold removeAttack. fold isStopped. now rewrite Hnone.
Qed.

Lemma stopAttack_activeAttacks (s : Engine) :
  activeAttacks (stopAttack stoppedId s) =
  filter (fun a => negb (isStopped a)) (activeAttacks s).
Proof.
  unfold stopAttack, andThen, removeAttack. fold isStopped.
  destruct (find isStopped (activeAttacks s)) as [target|] eqn:Hfind.
  - destruct (negb (blocked target) && _); reflexivity.
  - cbn. now rewrite find_none_filter.
Qed.

Lemma stopAttack_devices (s : Engine) :
  devices (stopAttack stoppedId s) =
  match find isStopped (activeAttacks s) with
  | None => devices s
  | Some target =>
      if negb (blocked target) &&
         negb (existsb (fun a =>
                 opt_eqb (targetDeviceId a) (targetDeviceId target)
                 && negb (blocked a))
                 (filter (fun a => negb (isStopped a)) (activeAttacks s)))
      then map (fun d =>
                  if opt_eqb (Some (id_of d)) (targetDeviceId target)
                  then withStatus SECURE d else d) (devices s)
      else devices s
  end.
Proof.
  unfold stopAttack, andThen, removeAttack. fold isStopped.
  destruct (find isStopped (activeAttacks s)) as [target|]; [|reflexivity].
  destruct (negb (blocked target) && _); reflexivity.
Qed.

Lemma stopAttack_stats (s : Engine) :
  stats (stopAttack stoppedId s) =
  mkStats (totalAttacks (stats s)) (blockedAttacks (stats s))
    (Z.max 0 (activeThreats (stats s) - 1)) (attacksPerMinute (stats s)).
Proof.
  unfold stopAttack, andThen, removeAttack.
  destruct (find _ (activeAttacks s)) as [target|]; [|reflexivity].
  destruct (negb (blocked target) && _); reflexivity.
Qed.

Lemma stopAttack_rest (s : Engine) :
  protocolEnabled (stopAttack stoppedId s) = protocolEnabled s /\
  events (stopAttack stoppedId s) = events s /\
  attackTimestamps (stopAttack stoppedId s) = attackTimestamps s.
Proof.
  unfold stopAttack, andThen, removeAttack.
  destruct (find _ (activeAttacks s)) as [target|];
    [|repeat split; reflexivity].
  destruct (negb (blocked target) && _); repeat split; reflexivity.
Qed.

End StopAttackEquations.

Lemma toggleProtocol_on (eid : string) (t : Z) (s : Engine) :
  protocolEnabled s = false ->
  toggleProtocol eid t s =
  mkEngine (map (withStatus SECURE) (devices s))
    (map (withBlocked true) (activeAttacks s)) true
    (firstn MAX_EVENTS (enabledEvent eid t :: events s))
    (mkStats (totalAttacks (stats s))
       (blockedAttacks (stats s) + activeThreats (stats s)) 0
       (attacksPerMinute (stats s)))
    (attackTimestamps s).
Proof.
  intros Hoff. unfold toggleProtocol. rewrite Hoff. reflexivity.
Qed.

Lemma toggleProtocol_off (eid : string) (t : Z) (s : Engine) :
  protocolEnabled s = true ->
  toggleProtocol eid t s =
  mkEngine (devices s) (activeAttacks s) false
    (firstn MAX_EVENTS (disabledEvent eid t :: events s))
    (stats s) (attackTimestamps s).
Proof.
  intros Hon. unfold toggleProtocol. rewrite Hon. reflexivity.
Qed.

Lemma toggleProtocol_events (eid : string) (t : Z) (s : Engine) :
  events (toggleProtocol eid t s) =
  firstn MAX_EVENTS
    ((if protocolEnabled s then disabledEvent eid t else enabledEvent eid t)
     :: events s).
Proof.
  destruct (protocolEnabled s) eqn:Hp.
  - now rewrite toggleProtocol_off.
  - now rewrite toggleProtocol_on.
Qed.

Lemma toggleProtocol_attackTimestamps (eid : string) (t : Z) (s : Engine) :
  attackTimestamps (toggleProtocol eid t s) = attackTimestamps s.
Proof.
  destruct (protocolEnabled s) eqn:Hp.
  - now rewrite toggleProtocol_off.
  - now rewrite toggleProtocol_on.
Qed.

(** ** The event log *)

Section FirstN.

Context {A : Type}.

Lemma firstn_push (n : nat) (a : A) (l : list A) :
  firstn (S n) (a :: firstn (S n) l) = firstn (S n) (a :: l).
Proof.
  rewrite !firstn_cons, firstn_firstn.
  now rewrite Nat.min_l by lia.
Qed.

Lemma firstn_In (n : nat) (l : list A) (a : A) :
  In a (firstn n l) -> In a l.
Proof.
  revert l. induction n as [|n IH]; intros [|b l]; cbn; try tauto.
  intros [->|Hin]; [now left | right; now apply IH].
Qed.

Lemma Forall_firstn_keep (P : A -> Prop) (n : nat) (l : list A) :
  Forall P l -> Forall P (firstn n l).
Proof.
  rewrite !Forall_forall. intros Hall a Ha.
  apply Hall. now apply firstn_In with n.
Qed.

Lemma StronglySorted_firstn (R : A -> A -> Prop) (n : nat) :
  forall l, StronglySorted R l -> StronglySorted R (firstn n l).
Proof.
  induction n as [|n IH]; intros l Hl; [constructor|].
  destruct Hl as [|a l Hl Ha]; [constructor|].
  rewrite firstn_cons. constructor; [now apply IH|].
  now apply Forall_firstn_keep.
Qed.

(** Pushing on a log that holds [S n] entries drops its last entry and
    nothing else. *)
Lemma firstn_push_full (n : nat) (a : A) (l : list A) :
  List.length l = S n -> firstn (S n) (a :: l) = a :: removelast l.
Proof.
  intros Hlen. rewrite firstn_cons, removelast_firstn_len, Hlen.
  reflexivity.
Qed.

End FirstN.

Lemma log_inv_push (w : World) (s' : Engine) (e : Event) (clock' : Z)
    (rec' : list Z) :
  log_inv w ->
  events s' = firstn MAX_EVENTS (e :: events (engine w)) ->
  wallClock w <= ev_timestamp e -> ev_timestamp e <= clock' ->
  log_inv (mkWorld s' clock' rec' (journal w ++ [e])).
Proof.
  intros (Hlog & Hsorted & Hbound) Hev Hlo Hhi.
  unfold log_inv. cbn [engine journal wallClock]. rewrite Hev.
  split; [|split].
  - rewrite rev_unit, Hlog. apply firstn_push.
  - apply StronglySorted_firstn. constructor; [exact Hsorted|].
    eapply Forall_impl; [|exact Hbound].
    intros e0 He0. unfold newerFirst. cbv beta in He0. lia.
  - apply Forall_firstn_keep. constructor; [exact Hhi|].
    eapply Forall_impl; [|exact Hbound]. intros e0 He0.
    cbv beta in He0 |- *. lia.
Qed.

Lemma log_inv_keep (w : World) (s' : Engine) :
  log_inv w -> events s' = events (engine w) ->
  log_inv (mkWorld s' (wallClock w) (recorded w) (journal w)).
Proof.
  intros (Hlog & Hsorted & Hbound) Hev.
  unfold log_inv. cbn [engine journal wallClock]. rewrite Hev. tauto.
Qed.

Lemma log_inv_step (w : World) (op : Op) :
  log_inv w -> op_ok w op = true -> log_inv (observe op w).
Proof.
  intros Hinv Hok.
  destruct op as [attackType env|stoppedId|eid t|]; unfold observe.
  - destruct (findDefinition attackType) as [definition|] eqn:Hdef.
    + destruct (op_ok_start _ _ _ _ Hdef Hok) as (_ & _ & Hlo & Hhi & _).
      apply log_inv_push; try assumption.
      apply (startAttack_events _ env _ Hdef).
    + apply log_inv_keep; [assumption|].
      cbn [step]. unfold startAttack. now rewrite Hdef.
  - apply log_inv_keep; [assumption|]. apply stopAttack_rest.
  - cbn in Hok. apply Z.leb_le in Hok.
    apply log_inv_push; try assumption.
    + apply toggleProtocol_events.
    + destruct (protocolEnabled (engine w)); exact Hok.
    + destruct (protocolEnabled (engine w)); cbn; lia.
  - destruct Hinv as (_ & _ & _). unfold log_inv. cbn.
    repeat split; constructor.
Qed.

(** C6. After every admissible run the event log holds at most 50 entries;
    it is the newest entries logged since the last [clearEvents], newest
    first, so its timestamps never increase from the head on; and pushing an
    entry on a log that holds 50 keeps the 49 newest in order and drops
    exactly the oldest, the last one. *)
Theorem event_log_cap_and_order (ops : list Op) :
  admissible ops = true ->
  (List.length (events (engine (run ops))) <= 50)%nat /\
  events (engine (run ops)) = firstn 50 (rev (journal (run ops))) /\
  StronglySorted newerFirst (events (engine (run ops))) /\
  forall event,
    List.length (events (engine (run ops))) = 50%nat ->
    events (pushEvent event (engine (run ops))) =
    event :: removelast (events (engine (run ops))).
Proof.
  intros Hadm.
  assert (Hinv : log_inv (run ops)).
  { apply admissible_run_ind; [|apply log_inv_step|exact Hadm].
    unfold log_inv. cbn. repeat split; constructor. }
  destruct Hinv as (Hlog & Hsorted & _).
  split; [|split; [exact Hlog|split; [exact Hsorted|]]].
  - rewrite Hlog. apply firstn_le_length.
  - intros event Hfull. unfold pushEvent, setEvents. cbn [events].
    now apply firstn_push_full.
Qed.

Lemma event_log_cap_and_order_witness :
  admissible (toggles 60) = true /\
  List.length (journal (run (toggles 60))) = 60%nat /\
  (List.length (events (engine (run (toggles 60)))) <= 50)%nat.
Proof.
  split; [evaluate|]. split; [evaluate|].
  exact (proj1 (event_log_cap_and_order (toggles 60) ltac:(evaluate))).
Defined.

(** ** The rolling rate window *)

Lemma filter_cutoffs (K K' : Z) (l : list Z) :
  K <= K' ->
  filter (fun t => K' <? t) (filter (fun t => K <? t) l) =
  filter (fun t => K' <? t) l.
Proof.
  intros Hle. induction l as [|t l IH]; [reflexivity|].
  cbn. destruct (K <? t) eqn:HK; cbn.
  - now rewrite IH.
  - rewrite IH. destruct (K' <? t) eqn:HK'; [|reflexivity].
    apply Z.ltb_lt in HK'. apply Z.ltb_ge in HK. lia.
Qed.

Lemma filter_age (clock : Z) (l : list Z) :
  filter (fun t => clock - 60000 <? t) l =
  filter (fun t => clock - t <? 60000) l.
Proof.
  apply filter_ext. intros t.
  destruct (clock - 60000 <? t) eqn:H1, (clock - t <? 60000) eqn:H2;
    try reflexivity;
    rewrite ?Z.ltb_lt, ?Z.ltb_ge in H1, H2; lia.
Qed.

Lemma window_inv_step (w : World) (op : Op) :
  window_inv w -> op_ok w op = true -> window_inv (observe op w).
Proof.
  intros (K & HK & Hwin) Hok.
  destruct op as [attackType env|stoppedId|eid t|]; unfold observe.
  - destruct (findDefinition attackType) as [definition|] eqn:Hdef.
    + destruct (op_ok_start _ _ _ _ Hdef Hok) as (_ & _ & Hlo & Hhi & _).
      exists (statsNow env - 60000). cbn [engine wallClock recorded step].
      split; [lia|].
      rewrite (startAttack_attackTimestamps _ env _ Hdef), Hwin.
      rewrite !filter_app, filter_cutoffs by lia. reflexivity.
    + exists K. cbn [engine wallClock recorded step].
      unfold startAttack. rewrite Hdef. tauto.
  - exists K. cbn [engine wallClock recorded step].
    split; [exact HK|]. rewrite <- Hwin. apply stopAttack_rest.
  - cbn in Hok. apply Z.leb_le in Hok.
    exists K. cbn [engine wallClock recorded step].
    split; [lia|]. now rewrite toggleProtocol_attackTimestamps.
  - exists K. cbn. tauto.
Qed.

Lemma window_inv_run (ops : list Op) :
  admissible ops = true -> window_inv (run ops).
Proof.
  apply admissible_run_ind; [|apply window_inv_step].
  exists (- 60000). cbn. split; [lia|reflexivity].
Qed.

(** C5. When [startAttack] recomputes [attacksPerMinute] at the clock
    reading [statsNow], the value is the number of timestamps recorded during
    the whole run that are less than 60 seconds old, and the window kept is
    exactly those; a recorded timestamp that is 60 seconds old or older is
    not in it.  [refreshStats] counts with the same strict bound. *)
Theorem rate_window_correct (ops : list Op) (attackType : string)
    (env : StartEnv) (definition : AttackDefinition) :
  findDefinition attackType = Some definition ->
  admissible (ops ++ [StartAttack attackType env]) = true ->
  let w := run (ops ++ [StartAttack attackType env]) in
  attacksPerMinute (stats (engine w)) =
    Z.of_nat (List.length
      (filter (fun t => statsNow env - t <? 60000) (recorded w))) /\
  attackTimestamps (engine w) =
    filter (fun t => statsNow env - t <? 60000) (recorded w) /\
  (forall t, 60000 <= statsNow env - t ->
             ~ In t (attackTimestamps (engine w))) /\
  (forall attacks total totalBlocked clock s,
      attacksPerMinute
        (stats (refreshStats attacks total totalBlocked clock s)) =
      Z.of_nat (List.length
        (filter (fun t => clock - t <? 60000) (attackTimestamps s)))).
Proof.
  intros Hdef Hadm w.
  unfold admissible in Hadm. rewrite admissible_from_app in Hadm.
  apply andb_true_iff in Hadm. destruct Hadm as [Hops Hlast].
  cbn [admissible_from] in Hlast. rewrite andb_true_r in Hlast.
  destruct (window_inv_run ops Hops) as (K & HK & Hwin).
  destruct (op_ok_start _ _ _ _ Hdef Hlast) as (_ & _ & Hlo & Hhi & _).
  assert (Hw : w = observe (StartAttack attackType env) (run ops)).
  { unfold w, run. rewrite run_from_app. reflexivity. }
  assert (Hwindow : attackTimestamps (engine w) =
            filter (fun t => statsNow env - t <? 60000) (recorded w)).
  { rewrite Hw. unfold observe. rewrite Hdef.
    cbn [engine recorded step].
    rewrite (startAttack_attackTimestamps _ env _ Hdef), Hwin.
    rewrite <- filter_age.
    rewrite !filter_app, filter_cutoffs by (unfold run in *; lia).
    reflexivity. }
  split; [|split; [exact Hwindow|split]].
  - rewrite <- Hwindow. rewrite Hw. unfold observe. rewrite Hdef.
    cbn [engine step].
    rewrite (startAttack_stats _ env _ Hdef),
            (startAttack_attackTimestamps _ env _ Hdef).
    reflexivity.
  - intros t Hold Hin. rewrite Hwindow in Hin.
    apply filter_In in Hin. destruct Hin as [_ Hyoung].
    apply Z.ltb_lt in Hyoung. lia.
  - intros attacks total totalBlocked clock s. reflexivity.
Qed.

Lemma rate_window_correct_witness :
  let ops :=
    [StartAttack "denial_of_service" (mkStartEnv 0 "a1" "e1" 1000 1000);
     StartAttack "replay_attack" (mkStartEnv (1 # 2) "a2" "e2" 30000 30001)]
  in
  let env := mkStartEnv (1 # 3) "a3" "e3" 61000 61000 in
  let w := run (ops ++ [StartAttack "brute_force" env]) in
  recorded w = [1000; 30000; 61000] /\
  attacksPerMinute (stats (engine w)) =
    Z.of_nat (List.length
      (filter (fun t => statsNow env - t <? 60000) (recorded w))).
Proof.
  intros ops env w. split; [vm_compute; reflexivity|].
  pose proof (rate_window_correct ops "brute_force" env) as Hrate.
  specialize (Hrate _ ltac:(vm_compute; reflexivity)
                      ltac:(vm_compute; reflexivity)).
  cbv zeta in Hrate. exact (proj1 Hrate).
Defined.

(** ** Device status and the active attacks *)

Lemma opt_eqb_eq (a b : option string) : opt_eqb a b = true <-> a = b.
Proof.
  destruct a as [x|], b as [y|]; cbn; try (split; congruence).
  rewrite String.eqb_eq. split; congruence.
Qed.

Lemma opt_eqb_sym (a b : option string) : opt_eqb a b = opt_eqb b a.
Proof.
  destruct a as [x|], b as [y|]; cbn; try reflexivity.
  apply String.eqb_sym.
Qed.

Lemma hits_withStatus (st : Status) (d : Device) (a : Attack) :
  hits (withStatus st d) a = hits d a.
Proof. reflexivity. Qed.

Lemma existsb_hits_withStatus (st : Status) (d : Device) (l : list Attack) :
  existsb (hits (withStatus st d)) l = existsb (hits d) l.
Proof. reflexivity. Qed.

(** Removing attacks keeps the ids of the remaining ones distinct. *)
Lemma ids_distinct_filter (keep : Attack -> bool) (attacks : list Attack) :
  NoDup (map id attacks) -> NoDup (map id (filter keep attacks)).
Proof.
  intros Hnd. induction attacks as [|a rest IH]; [exact Hnd|].
  cbn [map] in Hnd. apply NoDup_cons_iff in Hnd.
  destruct Hnd as [Hnew Hrest]. cbn [filter].
  destruct (keep a); [|now apply IH].
  cbn [map]. apply NoDup_cons; [|now apply IH].
  rewrite in_map_iff. intros (b & Hid & Hb).
  apply filter_In in Hb. apply Hnew.
  rewrite <- Hid. apply in_map. tauto.
Qed.

Lemma fresh_NoDup (i : string) (l : list Attack) (a : Attack) :
  fresh i l = true -> id a = i -> NoDup (map id l) ->
  NoDup (map id (l ++ [a])).
Proof.
  intros Hfresh Hid Hnd. rewrite map_app. cbn.
  apply NoDup_app; [exact Hnd|repeat constructor; intros []|].
  intros x Hx [Hx'|[]]. subst x.
  apply in_map_iff in Hx. destruct Hx as (b & Hb & Hin).
  unfold fresh in Hfresh. apply negb_true_iff in Hfresh.
  assert (Hex : existsb (fun a0 => String.eqb (id a0) i) l = true).
  { apply existsb_exists. exists b. split; [exact Hin|].
    apply String.eqb_eq. congruence. }
  congruence.
Qed.

Section StopOne.

Variable stoppedId : string.

Let isStopped (a : Attack) : bool := String.eqb (id a) stoppedId.

(** With distinct ids, the stop removes the attack found and no other. *)
Lemma existsb_split_stopped (P : Attack -> bool) (l : list Attack)
    (target : Attack) :
  NoDup (map id l) ->
  find isStopped l = Some target ->
  existsb P l =
  P target || existsb P (filter (fun a => negb (isStopped a)) l).
Proof.
  induction l as [|a l IH]; [discriminate|].
  cbn [map find filter existsb]. intros Hnd Hfind.
  inversion Hnd as [|? ? Hnotin Hnd']; subst.
  destruct (isStopped a) eqn:Ha; cbn [negb].
  - injection Hfind as <-.
    assert (Hkeep : filter (fun a => negb (isStopped a)) l = l).
    { apply (find_none_filter stoppedId l).
      destruct (find _ l) as [b|] eqn:Hb; [|reflexivity].
      apply find_some in Hb. destruct Hb as [Hin Hb].
      exfalso. apply Hnotin.
      unfold isStopped in Ha. apply String.eqb_eq in Ha, Hb.
      rewrite Ha, <- Hb. now apply in_map. }
    rewrite Hkeep. reflexivity.
  - cbn [existsb]. rewrite (IH Hnd' Hfind).
    destruct (P a), (P target); reflexivity.
Qed.

End StopOne.

Lemma existsb_pointwise {A : Type} (f g : A -> bool) (l : list A) :
  (forall a, f a = g a) -> existsb f l = existsb g l.
Proof.
  intros Hfg. induction l as [|a l IH]; [reflexivity|].
  cbn. now rewrite Hfg, IH.
Qed.

Lemma isSecure_statusFor (sev : Severity) (d : Device) :
  isSecure (withStatus (statusFor sev) d) = false.
Proof. destruct sev; reflexivity. Qed.

Lemma status_inv_start (attackType : string) (env : StartEnv) (s : Engine)
    (definition : AttackDefinition) :
  findDefinition attackType = Some definition ->
  fresh (attackId env) (activeAttacks s) = true ->
  status_inv s -> status_inv (startAttack attackType env s).
Proof.
  intros Hdef Hfresh [Hnd Hst]. split.
  - rewrite (startAttack_activeAttacks _ env _ Hdef).
    now apply fresh_NoDup with (i := attackId env).
  - intros d Hd.
    rewrite (startAttack_activeAttacks _ env _ Hdef), existsb_app.
    cbn [existsb]. rewrite orb_false_r.
    rewrite (startAttack_devices _ env _ Hdef) in Hd.
    destruct (protocolEnabled s) eqn:Hp.
    + rewrite (Hst d Hd). unfold hits at 2. cbn [blocked negb andb].
      now rewrite orb_false_r.
    + apply in_map_iff in Hd. destruct Hd as (d0 & Hd0 & Hin).
      specialize (Hst d0 Hin). unfold hits at 2.
      cbn [blocked targetDeviceId negb andb].
      destruct (opt_eqb (Some (id_of d0)) _) eqn:Ht; subst d.
      * rewrite isSecure_statusFor.
        change (id_of (withStatus _ d0)) with (id_of d0).
        rewrite opt_eqb_sym, Ht. now rewrite orb_true_r.
      * rewrite opt_eqb_sym, Ht, orb_false_r. exact Hst.
Qed.

Lemma status_inv_stop (stoppedId : string) (s : Engine) :
  status_inv s -> status_inv (stopAttack stoppedId s).
Proof.
  intros [Hnd Hst]. split.
  - rewrite stopAttack_activeAttacks. now apply ids_distinct_filter.
  - intros d Hd.
    rewrite stopAttack_activeAttacks. rewrite stopAttack_devices in Hd.
    destruct (find _ (activeAttacks s)) as [target|] eqn:Hfind.
    2:{ rewrite (find_none_filter stoppedId _ Hfind). now apply Hst. }
    pose proof (existsb_split_stopped stoppedId) as Hsplit.
    cbv zeta in Hsplit.
    destruct (blocked target) eqn:Hb; cbn [negb andb] in Hd.
    { rewrite (Hst d Hd), (Hsplit (hits d) _ _ Hnd Hfind).
      unfold hits at 1. now rewrite Hb. }
    match type of Hd with
    | In d (if negb (existsb ?P ?l) then _ else _) =>
        destruct (existsb P l) eqn:Hstill; cbn [negb] in Hd
    end.
    + rewrite (Hst d Hd), (Hsplit (hits d) _ _ Hnd Hfind).
      destruct (hits d target) eqn:Hhit; [|reflexivity].
      cbn [orb]. symmetry.
      apply existsb_exists in Hstill. destruct Hstill as (a & Ha & Hsame).
      apply existsb_exists. exists a. split; [exact Ha|].
      apply andb_true_iff in Hsame. destruct Hsame as [Hsame Hunb].
      unfold hits in *. rewrite Hunb. cbn [andb].
      apply andb_true_iff in Hhit. destruct Hhit as [_ Hhit].
      apply opt_eqb_eq in Hsame, Hhit. apply opt_eqb_eq. congruence.
    + apply in_map_iff in Hd. destruct Hd as (d0 & Hd0 & Hin).
      specialize (Hst d0 Hin).
      destruct (opt_eqb (Some (id_of d0)) (targetDeviceId target)) eqn:Ht;
        subst d.
      * cbn [isSecure withStatus status negb].
        rewrite existsb_hits_withStatus. symmetry.
        rewrite <- Hstill. apply existsb_pointwise. intros a.
        apply opt_eqb_eq in Ht. unfold hits. rewrite <- Ht.
        apply andb_comm.
      * rewrite Hst, (Hsplit (hits d0) _ _ Hnd Hfind).
        unfold hits at 1. rewrite Hb, opt_eqb_sym, Ht. reflexivity.
Qed.

Lemma existsb_hits_blocked (d : Device) (l : list Attack) :
  existsb (hits d) (map (withBlocked true) l) = false.
Proof. induction l as [|a l IH]; [reflexivity|exact IH]. Qed.

Lemma status_inv_toggle (eid : string) (t : Z) (s : Engine) :
  status_inv s -> status_inv (toggleProtocol eid t s).
Proof.
  intros [Hnd Hst].
  destruct (protocolEnabled s) eqn:Hp.
  - rewrite (toggleProtocol_off _ _ _ Hp). split; assumption.
  - rewrite (toggleProtocol_on _ _ _ Hp). split; cbn [activeAttacks devices].
    + rewrite map_map. exact Hnd.
    + intros d Hd. apply in_map_iff in Hd. destruct Hd as (d0 & <- & _).
      now rewrite existsb_hits_blocked.
Qed.

Lemma status_inv_step (w : World) (op : Op) :
  status_inv (engine w) -> op_ok w op = true ->
  status_inv (engine (observe op w)).
Proof.
  intros Hinv Hok. rewrite engine_observe.
  destruct op as [attackType env|stoppedId|eid t|]; cbn [step].
  - destruct (findDefinition attackType) as [definition|] eqn:Hdef.
    + destruct (op_ok_start _ _ _ _ Hdef Hok) as (_ & _ & _ & _ & Hfresh).
      now apply status_inv_start with definition.
    + unfold startAttack. now rewrite Hdef.
  - now apply status_inv_stop.
  - now apply status_inv_toggle.
  - exact Hinv.
Qed.

Lemma status_inv_run (ops : list Op) :
  admissible ops = true -> status_inv (engine (run ops)).
Proof.
  apply (admissible_run_ind (fun w => status_inv (engine w)));
    [|apply status_inv_step].
  split; [constructor|]. intros d Hd.
  cbn in Hd. repeat (destruct Hd as [<-|Hd]; [reflexivity|]). destruct Hd.
Qed.

Lemma existsb_hits_iff (d : Device) (l : list Attack) :
  existsb (hits d) l = true <->
  exists a, In a l /\ blocked a = false /\
            targetDeviceId a = Some (id_of d).
Proof.
  rewrite existsb_exists. split; intros (a & Hin & Ha); exists a.
  - unfold hits in Ha. apply andb_true_iff in Ha. destruct Ha as [Hb Ht].
    apply negb_true_iff in Hb. apply opt_eqb_eq in Ht. tauto.
  - destruct Ha as [Hb Ht]. split; [exact Hin|].
    unfold hits. rewrite Hb. cbn. now apply opt_eqb_eq.
Qed.

Lemma latestWrite_snoc (writes : list (string * Severity))
    (target : string) (sev : Severity) (deviceId : string) :
  latestWrite (writes ++ [(target, sev)]) deviceId =
  if String.eqb target deviceId then Some sev
  else latestWrite writes deviceId.
Proof.
  unfold latestWrite. rewrite rev_unit. cbn [find fst snd].
  now destruct (String.eqb target deviceId).
Qed.

Lemma write_inv_step (op : Op) (s : Engine)
    (writes : list (string * Severity)) :
  write_inv s writes ->
  write_inv (step op s) (writes ++ unblockedStarts s [op]).
Proof.
  intros Hinv. cbn [unblockedStarts]. rewrite app_nil_r.
  destruct op as [attackType env|stoppedId|eid t|]; cbn [step];
    try rewrite app_nil_r.
  - destruct (findDefinition attackType) as [definition|] eqn:Hdef;
      [|rewrite app_nil_r; unfold startAttack; now rewrite Hdef].
    intros d Hd Hns. rewrite (startAttack_devices _ env _ Hdef) in Hd.
    destruct (protocolEnabled s); [rewrite app_nil_r; now apply Hinv|].
    apply in_map_iff in Hd. destruct Hd as (d0 & Hd0 & Hin).
    destruct (randomElement (rnd env) (def_targetDevices definition))
      as [target|] eqn:Htarget.
    + rewrite latestWrite_snoc. cbn [opt_eqb] in Hd0.
      rewrite (String.eqb_sym target).
      destruct (String.eqb (id_of d0) target) eqn:Hid; subst d.
      * change (id_of (withStatus _ d0)) with (id_of d0). rewrite Hid.
        eexists. split; reflexivity.
      * rewrite Hid. now apply Hinv.
    + rewrite app_nil_r. cbn [opt_eqb] in Hd0. subst d. now apply Hinv.
  - intros d Hd Hns. rewrite stopAttack_devices in Hd.
    destruct (find _ (activeAttacks s)) as [target|]; [|now apply Hinv].
    destruct (negb (blocked target) && _); [|now apply Hinv].
    apply in_map_iff in Hd. destruct Hd as (d0 & Hd0 & Hin).
    destruct (opt_eqb _ _); subst d; [now elim Hns | now apply Hinv].
  - intros d Hd Hns. destruct (protocolEnabled s) eqn:Hp.
    + rewrite (toggleProtocol_off _ _ _ Hp) in Hd. now apply Hinv.
    + rewrite (toggleProtocol_on _ _ _ Hp) in Hd. cbn [devices] in Hd.
      apply in_map_iff in Hd. destruct Hd as (d0 & <- & _). now elim Hns.
  - exact Hinv.
Qed.

Lemma unblockedStarts_cons (op : Op) (rest : list Op) (s : Engine) :
  unblockedStarts s (op :: rest) =
  unblockedStarts s [op] ++ unblockedStarts (step op s) rest.
Proof. cbn [unblockedStarts]. now rewrite app_nil_r. Qed.

Lemma write_inv_exec (ops : list Op) :
  forall s writes,
    write_inv s writes ->
    write_inv (exec ops s) (writes ++ unblockedStarts s ops).
Proof.
  induction ops as [|op ops IH]; intros s writes Hinv.
  - cbn [unblockedStarts]. now rewrite app_nil_r.
  - rewrite unblockedStarts_cons, app_assoc.
    change (exec (op :: ops) s) with (exec ops (step op s)).
    apply IH. now apply write_inv_step.
Qed.

(** C1, as amended. After every admissible run, a device's status is
    'compromised' or 'warning' if and only if an active attack with
    [blocked = false] targets it, and 'secure' if and only if none does.
    Which of the two a device shows is what the latest unblocked
    [startAttack] on it wrote: 'compromised' for a critical definition,
    'warning' for any other.  This holds of the state a [startAttack]
    returns and, as an invariant, of every non-secure device after every
    run: its status is the one for the severity of the latest unblocked
    start against it in the run. *)
Theorem status_tracks_unblocked_attacks (ops : list Op) :
  admissible ops = true ->
  let s := engine (run ops) in
  (forall d, In d (devices s) ->
     ((status d = COMPROMISED \/ status d = WARNING) <->
      exists a, In a (activeAttacks s) /\ blocked a = false /\
                targetDeviceId a = Some (id_of d)) /\
     (status d = SECURE <->
      ~ exists a, In a (activeAttacks s) /\ blocked a = false /\
                  targetDeviceId a = Some (id_of d))) /\
  (forall attackType env definition d,
     findDefinition attackType = Some definition ->
     protocolEnabled s = false ->
     In d (devices (startAttack attackType env s)) ->
     randomElement (rnd env) (def_targetDevices definition)
       = Some (id_of d) ->
     status d = match def_severity definition with
                | critical => COMPROMISED
                | _ => WARNING
                end) /\
  (forall d, In d (devices s) ->
     status d = COMPROMISED \/ status d = WARNING ->
     exists sev,
       latestWrite (unblockedStarts initialEngine ops) (id_of d) = Some sev /\
       status d = match sev with
                  | critical => COMPROMISED
                  | _ => WARNING
                  end).
Proof.
  intros Hadm s. split; [|split].
  - intros d Hd.
    destruct (status_inv_run ops Hadm) as [_ Hst].
    specialize (Hst d Hd). fold s in Hst.
    rewrite <- existsb_hits_iff. rewrite <- Hst.
    unfold isSecure. destruct (status d); cbn; split; split;
      try tauto; try discriminate; try (intros [H|H]; discriminate H).
    all: intros H; try congruence; exfalso; apply H; reflexivity.
  - intros attackType env definition d Hdef Hoff Hd Htarget.
    rewrite (startAttack_devices _ env _ Hdef), Hoff in Hd.
    apply in_map_iff in Hd. destruct Hd as (d0 & Hd0 & _).
    assert (Hid : id_of d = id_of d0).
    { rewrite <- Hd0. now destruct (opt_eqb _ _). }
    rewrite Htarget, Hid in Hd0. cbn in Hd0.
    rewrite String.eqb_refl in Hd0. subst d.
    destruct (def_severity definition); reflexivity.
  - intros d Hd Hns.
    assert (Hw : write_inv (exec ops initialEngine)
                   ([] ++ unblockedStarts initialEngine ops)).
    { apply write_inv_exec. intros d0 Hd0 Hns0. exfalso. apply Hns0.
      cbn in Hd0.
      repeat (destruct Hd0 as [<-|Hd0]; [reflexivity|]). destruct Hd0. }
    cbn [app] in Hw. unfold s, run in Hd.
    rewrite engine_run_from in Hd.
    change (engine initialWorld) with initialEngine in Hd.
    destruct (Hw d Hd) as (sev & Hlatest & Hstatus).
    { destruct Hns as [Hc|Hc]; rewrite Hc; discriminate. }
    exists sev. split; [exact Hlatest|].
    rewrite Hstatus. now destruct sev.
Qed.

Lemma status_tracks_unblocked_attacks_witness :
  admissible cameraRun = true /\
  forall d, In d (devices (engine (run cameraRun))) ->
    ((status d = COMPROMISED \/ status d = WARNING) <->
     exists a, In a (activeAttacks (engine (run cameraRun))) /\
               blocked a = false /\ targetDeviceId a = Some (id_of d)) /\
    (status d = SECURE <->
     ~ exists a, In a (activeAttacks (engine (run cameraRun))) /\
                 blocked a = false /\ targetDeviceId a = Some (id_of d)).
Proof.
  split; [vm_compute; reflexivity|].
  refine (proj1 (status_tracks_unblocked_attacks cameraRun _)).
  vm_compute; reflexivity.
Defined.

(** C1, as stated, fails. After [cameraRun] the camera shows 'warning'
    although the one active unblocked attack that targets it is critical,
    for which the specification derives 'compromised'. *)
Lemma status_consistency_counterexample :
  let s := engine (run cameraRun) in
  admissible cameraRun = true /\
  (exists d, In d (devices s) /\ id_of d = "camera-01" /\
             status d = WARNING /\
             map severity (filter (hits d) (activeAttacks s)) = [critical] /\
             expectedStatus s d = COMPROMISED) /\
  ~ status_consistent s.
Proof.
  intros s. split; [vm_compute; reflexivity|].
  pose (camera := mkDevice
          (mkDeviceInfo "camera-01" "Smart Camera" CAMERA
             [25 # 10; 2; 15 # 10]%Q
             "IP surveillance camera — entrance monitoring" "v1.4.0" "RTSP"
             ["Unencrypted video stream"; "Weak authentication"] "Camera")
          WARNING).
  assert (Hin : In camera (devices s))
    by (vm_compute; right; left; reflexivity).
  split.
  - exists camera. split_all; try evaluate. exact Hin.
  - intros Hcons. specialize (Hcons camera Hin).
    vm_compute in Hcons. discriminate Hcons.
Qed.

(** ** [stopAttack] and the count of active threats *)

(** What a stop with a stale id does: only [activeThreats] is touched. *)
Lemma stopAttack_stale (stoppedId : string) (s : Engine) :
  fresh stoppedId (activeAttacks s) = true ->
  stopAttack stoppedId s =
  setStats (fun prev =>
    mkStats (totalAttacks prev) (blockedAttacks prev)
      (Z.max 0 (activeThreats prev - 1)) (attacksPerMinute prev)) s.
Proof.
  intros Hfresh. unfold stopAttack, andThen.
  rewrite removeAttack_stale; [reflexivity|].
  destruct (find _ (activeAttacks s)) as [a|] eqn:Hfind; [|reflexivity].
  apply find_some in Hfind. destruct Hfind as [Hin Ha].
  unfold fresh in Hfresh. apply negb_true_iff in Hfresh.
  assert (Hex : existsb (fun a0 => String.eqb (id a0) stoppedId)
                  (activeAttacks s) = true)
    by (apply existsb_exists; now exists a).
  congruence.
Qed.

(** C3 on the code. After [doubleStopRun] the id "a1" is stale and "a2" is
    still active and unblocked, with [activeThreats = 1]. A second
    [stopAttack "a1"] leaves attacks, devices, log and window as they are
    but sets [activeThreats] to 0, so the state does change. *)
Theorem stale_stop_decrements_activeThreats :
  let s := engine (run doubleStopRun) in
  let s' := stopAttack "a1" s in
  admissible doubleStopRun = true /\
  fresh "a1" (activeAttacks s) = true /\
  map id (activeAttacks s) = ["a2"] /\
  activeThreats (stats s) = 1 /\
  activeThreats (stats s') = 0 /\
  activeAttacks s' = activeAttacks s /\
  devices s' = devices s /\
  events s' = events s /\
  s' <> s.
Proof.
  intros s s'. split_all; try evaluate.
  intros Heq. apply (f_equal (fun x => activeThreats (stats x))) in Heq.
  vm_compute in Heq. discriminate Heq.
Qed.

(** C4 on the code. After [stopBlockedRun], in which [stopAttack] removes a
    blocked attack, one unblocked attack is active but [activeThreats] is
    0. *)
Theorem activeThreats_undercounts_after_stop :
  let s := engine (run stopBlockedRun) in
  admissible stopBlockedRun = true /\
  map (fun a => (id a, blocked a)) (activeAttacks s) = [("a1", false)] /\
  unblockedCount s = 1 /\
  activeThreats (stats s) = 0.
Proof.
  intros s. split_all; evaluate.
Qed.

(** ** The weighted draw of an origin *)

Local Open Scope Q_scope.

Lemma roulette_firstReaching (origins : list Origin) :
  forall roll x acc,
    roll == x - acc -> roulette roll origins = firstReaching x acc origins.
Proof.
  induction origins as [|o rest IH]; intros roll x acc Hroll; [reflexivity|].
  cbn [roulette firstReaching].
  assert (Hsame : Qle_bool (roll - weight o) 0 =
                  Qle_bool x (acc + weight o)).
  { destruct (Qle_bool (roll - weight o) 0) eqn:H1,
             (Qle_bool x (acc + weight o)) eqn:H2; try reflexivity.
    - apply Qle_bool_iff in H1.
      assert (H3 : x <= acc + weight o) by lra.
      apply Qle_bool_iff in H3. congruence.
    - apply Qle_bool_iff in H2.
      assert (H3 : roll - weight o <= 0) by lra.
      apply Qle_bool_iff in H3. congruence. }
  rewrite Hsame. destruct (Qle_bool x (acc + weight o)); [reflexivity|].
  apply IH. lra.
Qed.

Lemma roulette_In (origins : list Origin) :
  forall roll o, roulette roll origins = Some o -> In o origins.
Proof.
  induction origins as [|a rest IH]; intros roll o; [discriminate|].
  cbn [roulette]. destruct (Qle_bool _ _).
  - intros [= <-]. now left.
  - intros Hrest. right. now apply IH with (roll - weight a).
Qed.

Lemma cumulative_nil : cumulative [] = 0.
Proof. reflexivity. Qed.

Lemma cumulative_cons (o : Origin) (l : list Origin) :
  cumulative (o :: l) = weight o + cumulative l.
Proof. reflexivity. Qed.

Lemma totalWeight_from (origins : list Origin) :
  forall acc,
    fold_left (fun sum o => sum + weight o) origins acc ==
    acc + cumulative origins.
Proof.
  induction origins as [|o rest IH]; intros acc; cbn [fold_left].
  - rewrite cumulative_nil. lra.
  - rewrite IH, cumulative_cons. lra.
Qed.

Lemma totalWeight_cumulative (origins : list Origin) :
  totalWeight origins == cumulative origins.
Proof. unfold totalWeight. rewrite totalWeight_from. lra. Qed.

Lemma cumulative_nonneg (l : list Origin) :
  (forall o, In o l -> 0 <= weight o) -> 0 <= cumulative l.
Proof.
  induction l as [|a l IH]; intros Hpos.
  - rewrite cumulative_nil. lra.
  - rewrite cumulative_cons.
    assert (0 <= weight a) by (apply Hpos; now left).
    assert (0 <= cumulative l) by (apply IH; intros; apply Hpos; now right).
    lra.
Qed.

(** A draw that falls in the segment of an origin selects that origin. *)
Lemma firstReaching_segment (pre : list Origin) (o : Origin)
    (post : list Origin) (x : Q) :
  (forall p, In p pre -> 0 <= weight p) ->
  forall acc,
    acc + cumulative pre < x -> x <= acc + cumulative pre + weight o ->
    firstReaching x acc (pre ++ o :: post) = Some o.
Proof.
  induction pre as [|p pre IH]; intros Hpos acc Hlo Hhi;
    cbn [app firstReaching].
  - rewrite cumulative_nil in Hlo, Hhi.
    assert (Hle : x <= acc + weight o) by lra.
    apply Qle_bool_iff in Hle. now rewrite Hle.
  - rewrite cumulative_cons in Hlo, Hhi.
    assert (0 <= cumulative pre)
      by (apply cumulative_nonneg; intros; apply Hpos; now right).
    destruct (Qle_bool x (acc + weight p)) eqn:Hp.
    + apply Qle_bool_iff in Hp. lra.
    + apply IH; [intros; apply Hpos; now right | lra | lra].
Qed.

(** Every draw above the running sum and within the total falls in the
    segment of some origin. *)
Lemma segment_exists (l : list Origin) (x : Q) :
  forall acc,
    acc < x -> x <= acc + cumulative l ->
    exists pre o post,
      l = (pre ++ o :: post)%list /\
      acc + cumulative pre < x /\ x <= acc + cumulative pre + weight o.
Proof.
  induction l as [|a l IH]; intros acc Hlo Hhi.
  - rewrite cumulative_nil in Hhi. lra.
  - rewrite cumulative_cons in Hhi.
    destruct (Qlt_le_dec (acc + weight a) x) as [Hgt|Hle].
    + destruct (IH (acc + weight a) Hgt) as (pre & o & post & -> & H1 & H2);
        [lra|].
      exists (a :: pre), o, post. rewrite cumulative_cons.
      repeat split; lra.
    + exists [], a, l. rewrite cumulative_nil. repeat split; lra.
Qed.

Lemma weightedRandomOrigin_refines (r : Q) (origins : list Origin) :
  weightedRandomOrigin r origins =
  match firstReaching (r * totalWeight origins) 0 origins with
  | Some o => Some o
  | None => nth_error origins (List.length origins - 1)%nat
  end.
Proof.
  unfold weightedRandomOrigin.
  rewrite (roulette_firstReaching origins _ (r * totalWeight origins) 0);
    [reflexivity | lra].
Qed.

(** On a non-empty array the function returns one of its elements, whatever
    the draw and the weights. *)
Lemma weightedRandomOrigin_In (r : Q) (origins : list Origin) :
  origins <> [] ->
  exists o, weightedRandomOrigin r origins = Some o /\ In o origins.
Proof.
  intros Hne. unfold weightedRandomOrigin.
  destruct (roulette _ origins) as [o|] eqn:Hroll.
  - exists o. split; [reflexivity|]. now apply roulette_In in Hroll.
  - destruct (nth_error origins (List.length origins - 1)) as [o|] eqn:Hlast.
    + exists o. split; [reflexivity|]. now apply nth_error_In in Hlast.
    + apply nth_error_None in Hlast.
      destruct origins as [|a l]; [congruence|]. cbn in Hlast. lia.
Qed.

Section Shares.

Variable T : Q.
Hypothesis T_pos : 0 < T.

Lemma share_lt (a r : Q) : a / T < r <-> a < r * T.
Proof.
  split; intros H.
  - assert (Ha : a == a / T * T) by (field; lra).
    rewrite Ha. now apply Qmult_lt_compat_r.
  - now apply Qlt_shift_div_r.
Qed.

Lemma share_le (b r : Q) : r <= b / T <-> r * T <= b.
Proof.
  split; intros H.
  - assert (Hb : b == b / T * T) by (field; lra).
    rewrite Hb. apply Qmult_le_compat_r; [exact H | lra].
  - now apply Qle_shift_div_l.
Qed.

Lemma share_length (a w : Q) : (a + w) / T - a / T == w / T.
Proof. field. lra. Qed.

End Shares.

(** The weighted draw read in exact arithmetic. *)
Lemma exact_shares (r : Q) (origins : list Origin) :
  (forall o, In o origins -> 0 <= weight o) ->
  0 < totalWeight origins ->
  0 <= r -> r < 1 ->
  let total := totalWeight origins in
  weightedRandomOrigin r origins =
    match firstReaching (r * total) 0 origins with
    | Some o => Some o
    | None => nth_error origins (List.length origins - 1)%nat
    end /\
  (exists pre o post,
      origins = (pre ++ o :: post)%list /\
      weightedRandomOrigin r origins = Some o /\
      In o origins /\
      (pre = [] \/ cumulative pre / total < r) /\
      r <= (cumulative pre + weight o) / total) /\
  (forall pre o post,
      origins = (pre ++ o :: post)%list ->
      cumulative pre / total < r ->
      r <= (cumulative pre + weight o) / total ->
      weightedRandomOrigin r origins = Some o) /\
  (forall pre o,
      (cumulative pre + weight o) / total - cumulative pre / total
      == weight o / total).
Proof.
  intros Hpos HT Hr0 Hr1 total.
  assert (Hselect : forall pre o post,
             origins = (pre ++ o :: post)%list ->
             cumulative pre < r * total ->
             r * total <= cumulative pre + weight o ->
             weightedRandomOrigin r origins = Some o).
  { intros pre o post Hsplit Hlo Hhi.
    assert (Hpre : forall p, In p pre -> 0 <= weight p).
    { intros p Hp. apply Hpos. rewrite Hsplit. apply in_or_app. now left. }
    rewrite weightedRandomOrigin_refines. fold total. rewrite Hsplit.
    rewrite (firstReaching_segment pre o post (r * total) Hpre 0);
      [reflexivity | lra | lra]. }
  split; [apply weightedRandomOrigin_refines|].
  split; [|split].
  - destruct (Qlt_le_dec 0 (r * total)) as [Hx|Hx].
    + assert (Htot : r * total <= 0 + cumulative origins).
      { pose proof (totalWeight_cumulative origins) as Hc. fold total in Hc.
        assert (r * total <= 1 * total)
          by (apply Qmult_le_compat_r; unfold total; lra).
        lra. }
      destruct (segment_exists origins (r * total) 0 Hx Htot)
        as (pre & o & post & Hsplit & Hlo & Hhi).
      exists pre, o, post.
      split; [exact Hsplit|].
      split; [apply (Hselect pre o post Hsplit); lra|].
      split; [rewrite Hsplit; apply in_or_app; right; now left|].
      split; [right; apply (share_lt total HT); lra|].
      apply (share_le total HT). lra.
    + destruct origins as [|o post] eqn:Horigins.
      { unfold totalWeight in HT. cbn in HT. lra. }
      assert (Hw : 0 <= weight o) by (apply Hpos; now left).
      exists [], o, post.
      split; [reflexivity|].
      assert (Hhead : weightedRandomOrigin r (o :: post) = Some o).
      { rewrite weightedRandomOrigin_refines. fold total.
        cbn [firstReaching].
        assert (Hle : r * total <= 0 + weight o) by lra.
        apply Qle_bool_iff in Hle. now rewrite Hle. }
      split; [exact Hhead|]. split; [now left|]. split; [now left|].
      apply (share_le total HT). rewrite cumulative_nil. lra.
  - intros pre o post Hsplit Hlo Hhi.
    apply (Hselect pre o post Hsplit).
    + now apply (share_lt total HT).
    + now apply (share_le total HT).
  - intros pre o. apply (share_length total HT).
Qed.

Lemma roulette64_In (origins : list Origin) :
  forall roll o, roulette64 roll origins = Some o -> In o origins.
Proof.
  induction origins as [|a rest IH]; intros roll o; [discriminate|].
  cbn [roulette64]. destruct (PrimFloat.leb _ _).
  - intros [= <-]. now left.
  - intros Hrest. right. now apply IH with (PrimFloat.sub roll (weight64 a)).
Qed.

Lemma weightedRandomOrigin64_In (r : PrimFloat.float)
    (origins : list Origin) :
  origins <> [] ->
  exists o, weightedRandomOrigin64 r origins = Some o /\ In o origins.
Proof.
  intros Hne. unfold weightedRandomOrigin64.
  destruct (roulette64 _ origins) as [o|] eqn:Hroll.
  - exists o. split; [reflexivity|]. now apply roulette64_In in Hroll.
  - destruct (nth_error origins (List.length origins - 1)) as [o|] eqn:Hlast.
    + exists o. split; [reflexivity|]. now apply nth_error_In in Hlast.
    + apply nth_error_None in Hlast.
      destruct origins as [|a l]; [congruence|]. cbn in Hlast. lia.
Qed.

Lemma remainder64_cons (roll : PrimFloat.float) (o : Origin)
    (l : list Origin) :
  remainder64 roll (o :: l) = remainder64 (PrimFloat.sub roll (weight64 o)) l.
Proof. reflexivity. Qed.

(** The loop returns the first origin at which the remainder is at most 0. *)
Lemma roulette64_first (pre : list Origin) (o : Origin)
    (post : list Origin) :
  forall roll,
    (forall k, (k < List.length pre)%nat ->
       PrimFloat.leb (remainder64 roll (firstn (S k) pre)) PrimFloat.zero
       = false) ->
    PrimFloat.leb (remainder64 roll (pre ++ [o])) PrimFloat.zero = true ->
    roulette64 roll (pre ++ o :: post) = Some o.
Proof.
  induction pre as [|p pre IH]; intros roll Hbefore Hat.
  - cbn [app roulette64]. cbn [app] in Hat.
    rewrite remainder64_cons in Hat. cbn [remainder64 fold_left] in Hat.
    now rewrite Hat.
  - cbn [app roulette64].
    pose proof (Hbefore 0%nat ltac:(cbn; lia)) as Hp.
    cbn [firstn] in Hp. rewrite remainder64_cons in Hp.
    cbn [remainder64 fold_left] in Hp. rewrite Hp.
    apply IH.
    + intros k Hk. specialize (Hbefore (S k) ltac:(cbn; lia)).
      now rewrite firstn_cons, remainder64_cons in Hbefore.
    + cbn [app] in Hat. now rewrite remainder64_cons in Hat.
Qed.

(** The loop ends without returning when no remainder is at most 0. *)
Lemma roulette64_none (origins : list Origin) :
  forall roll,
    (forall k, (k < List.length origins)%nat ->
       PrimFloat.leb (remainder64 roll (firstn (S k) origins)) PrimFloat.zero
       = false) ->
    roulette64 roll origins = None.
Proof.
  induction origins as [|p rest IH]; intros roll Hall; [reflexivity|].
  cbn [roulette64].
  pose proof (Hall 0%nat ltac:(cbn; lia)) as Hp.
  cbn [firstn] in Hp. rewrite remainder64_cons in Hp.
  cbn [remainder64 fold_left] in Hp. rewrite Hp.
  apply IH. intros k Hk. specialize (Hall (S k) ltac:(cbn; lia)).
  now rewrite firstn_cons, remainder64_cons in Hall.
Qed.

(** C9, as amended. The program runs the roulette in binary64: [roll]
    starts as the rounded product of the draw and the rounded sum of the
    weights, each weight is subtracted from it in turn, and the function
    returns the first origin at which the remainder is at most 0, or the
    last origin when the loop ends without returning; whatever the draw and
    the weights, it returns an element of a non-empty list.  Read in exact
    arithmetic, for non-negative weights of positive total and a draw in
    [[0, 1)], this is the cumulative-weight rule: the origin returned is
    the first whose cumulative weight reaches [r * total], the draws that
    select an origin are its share of the unit interval, from
    [cumulative pre / total] (excluded, except at the head of the list) to
    [(cumulative pre + weight o) / total], and the share has length
    [weight o / total], the probability of the origin under a uniform
    draw.  The two readings can differ at a draw next to the boundary of a
    share, where rounding decides. *)
Theorem weighted_origin_roulette :
  (forall (r : PrimFloat.float) (origins : list Origin),
      origins <> [] ->
      exists o, weightedRandomOrigin64 r origins = Some o /\ In o origins) /\
  (forall (r : PrimFloat.float) (pre : list Origin) (o : Origin)
          (post : list Origin),
      let roll := PrimFloat.mul r (totalWeight64 (pre ++ o :: post)) in
      (forall k, (k < List.length pre)%nat ->
         PrimFloat.leb (remainder64 roll (firstn (S k) pre)) PrimFloat.zero
         = false) ->
      PrimFloat.leb (remainder64 roll (pre ++ [o])) PrimFloat.zero = true ->
      weightedRandomOrigin64 r (pre ++ o :: post) = Some o) /\
  (forall (r : PrimFloat.float) (origins : list Origin),
      let roll := PrimFloat.mul r (totalWeight64 origins) in
      (forall k, (k < List.length origins)%nat ->
         PrimFloat.leb (remainder64 roll (firstn (S k) origins))
           PrimFloat.zero = false) ->
      weightedRandomOrigin64 r origins =
      nth_error origins (List.length origins - 1)%nat) /\
  (forall (r : Q) (origins : list Origin),
      (forall o, In o origins -> 0 <= weight o) ->
      0 < totalWeight origins ->
      0 <= r -> r < 1 ->
      let total := totalWeight origins in
      weightedRandomOrigin r origins =
        match firstReaching (r * total) 0 origins with
        | Some o => Some o
        | None => nth_error origins (List.length origins - 1)%nat
        end /\
      (exists pre o post,
          origins = (pre ++ o :: post)%list /\
          weightedRandomOrigin r origins = Some o /\
          In o origins /\
          (pre = [] \/ cumulative pre / total < r) /\
          r <= (cumulative pre + weight o) / total) /\
      (forall pre o post,
          origins = (pre ++ o :: post)%list ->
          cumulative pre / total < r ->
          r <= (cumulative pre + weight o) / total ->
          weightedRandomOrigin r origins = Some o) /\
      (forall pre o,
          (cumulative pre + weight o) / total - cumulative pre / total
          == weight o / total)).
Proof.
  split; [exact weightedRandomOrigin64_In|].
  split; [|split; [|exact exact_shares]].
  - intros r pre o post roll Hbefore Hat. unfold weightedRandomOrigin64.
    fold roll. now rewrite (roulette64_first pre o post roll Hbefore Hat).
  - intros r origins roll Hall. unfold weightedRandomOrigin64. fold roll.
    now rewrite (roulette64_none origins roll Hall).
Qed.

Lemma weighted_origin_roulette_witness :
  exists o,
    weightedRandomOrigin64 (toDouble (7 # 10)) Registry.attackOrigins
      = Some o /\
    In o Registry.attackOrigins.
Proof.
  apply (proj1 weighted_origin_roulette). discriminate.
Defined.

(** C9, as stated, fails. With the registry and the draw 0.7 the program
    returns Iran, the cumulative-weight rule India, whether the rule is
    applied to the decimal weights or to the exact values of the binary64
    numbers the program holds (whose rounded sum is 1 + 2^-52, not 1); at
    the draw 1 - 2^-53 the loop ends without returning and the fallback
    supplies the last origin.  And with the weights 2 and -1, of positive
    total, the first origin is returned for every draw in [[0, 1)], so its
    share of the draws is 1, not its weight over the total, 2. *)
Lemma weighted_origin_roulette_counterexample :
  let r := toDouble (7 # 10) in
  let top := toDouble (9007199254740991 # 9007199254740992) in
  option_map country (weightedRandomOrigin64 r Registry.attackOrigins)
    = Some "Iran" /\
  option_map country
    (firstReaching
       (exactValue r * totalWeight (exactOrigins Registry.attackOrigins)) 0
       (exactOrigins Registry.attackOrigins)) = Some "India" /\
  option_map country
    (firstReaching (exactValue r * totalWeight Registry.attackOrigins) 0
       Registry.attackOrigins) = Some "India" /\
  Qeq_bool (exactValue (totalWeight64 Registry.attackOrigins))
    (1 + Qpower 2 (-52)) = true /\
  roulette64 (PrimFloat.mul top (totalWeight64 Registry.attackOrigins))
    Registry.attackOrigins = None /\
  option_map country (weightedRandomOrigin64 top Registry.attackOrigins)
    = Some "Ukraine" /\
  0 < totalWeight skewedOrigins /\
  (forall x : Q, 0 <= x -> x < 1 ->
     weightedRandomOrigin x skewedOrigins = hd_error skewedOrigins) /\
  option_map country
    (weightedRandomOrigin64 (toDouble (99 # 100)) skewedOrigins) = Some "A".
Proof.
  intros r top.
  split; [vm_compute; reflexivity|]. split; [vm_compute; reflexivity|].
  split; [vm_compute; reflexivity|]. split; [vm_compute; reflexivity|].
  split; [vm_compute; reflexivity|]. split; [vm_compute; reflexivity|].
  split; [vm_compute; reflexivity|].
  split; [|vm_compute; reflexivity].
  intros x Hx0 Hx1. unfold weightedRandomOrigin, skewedOrigins.
  cbn [roulette hd_error weight].
  assert (Htotal : totalWeight
            [mkOrigin "A" 0 0 2; mkOrigin "B" 0 0 (-1)] == 1)
    by (vm_compute; reflexivity).
  assert (Hroll : x * totalWeight
            [mkOrigin "A" 0 0 2; mkOrigin "B" 0 0 (-1)] - 2 <= 0)
    by (rewrite Htotal; lra).
  apply Qle_bool_iff in Hroll. now rewrite Hroll.
Qed.

(** * Further properties of the code *)

(** ** Random helpers *)

Lemma floor_scaled_bounds (r : Q) (n : Z) :
  0 <= r -> r < 1 -> (0 < n)%Z ->
  (0 <= Qfloor (r * inject_Z n) < n)%Z.
Proof.
  intros Hr0 Hr1 Hn.
  assert (Hn' : inject_Z 0 < inject_Z n) by (now rewrite <- Zlt_Qlt).
  change (inject_Z 0) with 0 in Hn'.
  split.
  - change 0%Z with (Qfloor 0). apply Qfloor_resp_le.
    apply Qmult_le_0_compat; [exact Hr0 | now apply Qlt_le_weak].
  - rewrite Zlt_Qlt.
    apply Qle_lt_trans with (r * inject_Z n); [apply Qfloor_le|].
    assert (H1 : r * inject_Z n < 1 * inject_Z n)
      by (now apply Qmult_lt_compat_r).
    lra.
Qed.

Lemma randomElement_empty {A : Type} (r : Q) :
  randomElement r (@nil A) = None.
Proof.
  unfold randomElement. cbn [List.length Z.of_nat].
  assert (Hz : r * inject_Z 0 == 0) by (unfold inject_Z; ring).
  rewrite (Qfloor_comp _ _ Hz). reflexivity.
Qed.

Lemma randomElement_some {A : Type} (r : Q) (array : list A) :
  0 <= r -> r < 1 -> array <> [] ->
  exists x,
    randomElement r array = Some x /\ In x array /\
    nth_error array
      (Z.to_nat (Qfloor (r * inject_Z (Z.of_nat (List.length array)))))
      = Some x.
Proof.
  intros Hr0 Hr1 Hne. unfold randomElement.
  assert (Hlen : (0 < Z.of_nat (List.length array))%Z)
    by (destruct array; [congruence | cbn; lia]).
  destruct (floor_scaled_bounds r _ Hr0 Hr1 Hlen) as [Hlo Hhi].
  destruct (Z.ltb_spec (Qfloor (r * inject_Z (Z.of_nat (List.length array))))
              0) as [Hneg|_]; [lia|].
  destruct (nth_error array _) as [x|] eqn:Hnth.
  - exists x. split; [reflexivity|]. split; [|reflexivity].
    now apply nth_error_In in Hnth.
  - apply nth_error_None in Hnth. lia.
Qed.

(** X1. [randomElement] returns an element of a non-empty array when the
    draw is in [[0, 1)]; on the empty array it returns [undefined] whatever
    the draw. *)
Theorem randomElement_in_array {A : Type} (r : Q) (array : list A) :
  (array = [] -> randomElement r array = None) /\
  (0 <= r -> r < 1 -> array <> [] ->
   exists x, randomElement r array = Some x /\ In x array).
Proof.
  split.
  - intros ->. apply randomElement_empty.
  - intros Hr0 Hr1 Hne.
    destruct (randomElement_some r array Hr0 Hr1 Hne) as (x & Hx & Hin & _).
    now exists x.
Qed.

Lemma randomElement_in_array_witness :
  exists x,
    randomElement (1 # 2) ["lock-01"; "light-01"; "thermostat-01"] = Some x /\
    In x ["lock-01"; "light-01"; "thermostat-01"].
Proof.
  apply (proj2 (randomElement_in_array (1 # 2)
                  ["lock-01"; "light-01"; "thermostat-01"])).
  - unfold Qle; cbn; lia.
  - reflexivity.
  - discriminate.
Defined.

(** X2. [randomBetween] on integers [min <= max] with a draw in [[0, 1)]
    returns an integer between [min] and [max], both included; so the
    engine's timer waits between 2000 and 4000 and the feed's between 1000
    and 3000. *)
Theorem randomBetween_bounds (r : Q) (min max : Z) :
  0 <= r -> r < 1 -> (min <= max)%Z ->
  (min <= randomBetween r min max <= max)%Z /\
  (2000 <= autoDelay r <= 4000)%Z /\
  (1000 <= feedDelay r <= 3000)%Z.
Proof.
  intros Hr0 Hr1 Hle.
  assert (Hgen : forall lo hi, (lo <= hi)%Z ->
                   (lo <= randomBetween r lo hi <= hi)%Z).
  { intros lo hi Hlh. unfold randomBetween.
    assert (Hpos : (0 < hi - lo + 1)%Z) by lia.
    pose proof (floor_scaled_bounds r _ Hr0 Hr1 Hpos). lia. }
  split; [now apply Hgen|].
  split; [apply Hgen|apply Hgen]; lia.
Qed.

Lemma randomBetween_bounds_witness :
  (2000 <= randomBetween (999 # 1000) 2000 4000 <= 4000)%Z.
Proof.
  apply (proj1 (randomBetween_bounds (999 # 1000) 2000 4000
                  ltac:(unfold Qle; cbn; lia) ltac:(reflexivity)
                  ltac:(lia))).
Defined.

(** ** Identifiers *)

Lemma toString16_digit (z : Z) :
  (0 <= z < 16)%Z ->
  exists c, toString16 z = String c EmptyString /\ isHexDigit c = true.
Proof.
  intros Hz.
  assert (Hcases : z = 0%Z \/ z = 1%Z \/ z = 2%Z \/ z = 3%Z \/ z = 4%Z \/
                   z = 5%Z \/ z = 6%Z \/ z = 7%Z \/ z = 8%Z \/ z = 9%Z \/
                   z = 10%Z \/ z = 11%Z \/ z = 12%Z \/ z = 13%Z \/
                   z = 14%Z \/ z = 15%Z) by lia.
  repeat (destruct Hcases as [->|Hcases];
          [eexists; split; reflexivity|]).
  subst z. eexists; split; reflexivity.
Qed.

(** Joining one-character strings gives one character per string. *)
Lemma concat_digits (pieces : list string) :
  Forall (fun p => exists c, p = String c EmptyString /\ isHexDigit c = true)
    pieces ->
  String.length (String.concat "" pieces) = List.length pieces /\
  forallb isHexDigit (list_ascii_of_string (String.concat "" pieces)) = true.
Proof.
  induction 1 as [|p rest (c & -> & Hc) Hrest IH]; [split; reflexivity|].
  destruct rest as [|q rest'].
  - change (String.concat "" [String c EmptyString])
      with (String c EmptyString).
    cbn [String.length list_ascii_of_string forallb List.length].
    rewrite Hc. split; reflexivity.
  - change (String.concat "" (String c EmptyString :: q :: rest'))
      with (String c (String.concat "" (q :: rest'))).
    destruct IH as [IHlen IHhex]. cbn [String.length list_ascii_of_string
                                       forallb List.length].
    rewrite IHlen, Hc, IHhex. split; reflexivity.
Qed.

(** X3. [generateId] returns 16 characters, each a lower-case hexadecimal
    digit, when its draws are in [[0, 1)]. *)
Theorem generateId_sixteen_hex_digits (draw : nat -> Q) :
  (forall k, (k < 16)%nat -> 0 <= draw k /\ draw k < 1) ->
  String.length (generateId draw) = 16%nat /\
  forallb isHexDigit (list_ascii_of_string (generateId draw)) = true.
Proof.
  intros Hdraw. unfold generateId.
  assert (Hpieces :
    Forall (fun p => exists c, p = String c EmptyString /\
                               isHexDigit c = true)
      (map (fun k => toString16 (Qfloor (draw k * 16))) (seq 0 16))).
  { apply Forall_forall. intros p Hp. apply in_map_iff in Hp.
    destruct Hp as (k & <- & Hk). apply in_seq in Hk.
    destruct (Hdraw k) as [H0 H1]; [lia|].
    apply toString16_digit.
    apply (floor_scaled_bounds (draw k) 16 H0 H1). lia. }
  destruct (concat_digits _ Hpieces) as [Hlen Hhex].
  split; [|exact Hhex].
  rewrite Hlen, length_map, length_seq. reflexivity.
Qed.

Lemma generateId_sixteen_hex_digits_witness :
  String.length (generateId (fun k => inject_Z (Z.of_nat k) / 16)) = 16%nat /\
  forallb isHexDigit
    (list_ascii_of_string (generateId (fun k => inject_Z (Z.of_nat k) / 16)))
  = true.
Proof.
  apply generateId_sixteen_hex_digits.
  intros k Hk.
  assert (Hcases : (k = 0 \/ k = 1 \/ k = 2 \/ k = 3 \/ k = 4 \/ k = 5 \/
                    k = 6 \/ k = 7 \/ k = 8 \/ k = 9 \/ k = 10 \/ k = 11 \/
                    k = 12 \/ k = 13 \/ k = 14 \/ k = 15)%nat) by lia.
  repeat (destruct Hcases as [->|Hcases];
          [split; [unfold Qle; cbn; lia | reflexivity]|]).
  subst k. split; [unfold Qle; cbn; lia | reflexivity].
Defined.

(** ** More on the weighted draw *)

(** X4. [weightedRandomOrigin] returns [undefined] exactly on the empty
    array. *)
Theorem weightedRandomOrigin_undefined_iff_empty (r : Q)
    (origins : list Origin) :
  weightedRandomOrigin r origins = None <-> origins = [].
Proof.
  split.
  - intros Hnone. destruct origins as [|o rest]; [reflexivity|].
    destruct (weightedRandomOrigin_In r (o :: rest)) as (x & Hx & _);
      congruence.
  - intros ->. reflexivity.
Qed.

(** ** The attack-map feed *)

Lemma feedRun_snoc (ticks : list (bool * LineEnv)) (t : bool * LineEnv) :
  feedRun (ticks ++ [t]) = tick (fst t) (snd t) (feedRun ticks).
Proof. unfold feedRun. now rewrite fold_left_app. Qed.

Lemma createdLines_snoc (ticks : list (bool * LineEnv))
    (t : bool * LineEnv) :
  createdLines (ticks ++ [t]) =
  createdLines ticks ++
  match lineOf (fst t) (snd t) with
  | Some line => [line]
  | None => []
  end.
Proof.
  unfold createdLines. rewrite flat_map_app. cbn [flat_map].
  now rewrite app_nil_r.
Qed.

(** Appending to the newest [MAX_LINES] lines and trimming gives the newest
    [MAX_LINES] lines again. *)
Lemma trimLines_newest (history : list AttackLine) (line : AttackLine) :
  trimLines
    (skipn (List.length history - MAX_LINES) history ++ [line]) =
  skipn (List.length (history ++ [line]) - MAX_LINES) (history ++ [line]).
Proof.
  unfold trimLines, MAX_LINES.
  rewrite !length_app, length_skipn. cbn [List.length].
  destruct (Nat.ltb_spec 20
              (List.length history - (List.length history - 20) + 1))
    as [Hfull|Hroom].
  - rewrite !skipn_app, skipn_skipn, length_skipn.
    replace (List.length history - (List.length history - 20) + 1
             - 20 + (List.length history - 20))%nat
      with (List.length history + 1 - 20)%nat by lia.
    f_equal.
    replace (List.length history - (List.length history - 20) + 1 - 20
             - (List.length history - (List.length history - 20)))%nat
      with 0%nat by lia.
    replace (List.length history + 1 - 20 - List.length history)%nat
      with 0%nat by lia.
    reflexivity.
  - replace (List.length history - 20)%nat with 0%nat by lia.
    replace (List.length history + 1 - 20)%nat with 0%nat by lia.
    reflexivity.
Qed.

Lemma feed_lines_newest (ticks : list (bool * LineEnv)) :
  attackLines (feedRun ticks) =
  skipn (List.length (createdLines ticks) - MAX_LINES) (createdLines ticks).
Proof.
  induction ticks as [|t ticks IH] using rev_ind; [reflexivity|].
  rewrite feedRun_snoc, createdLines_snoc.
  unfold tick, createAttackLine.
  destruct (lineOf (fst t) (snd t)) as [line|]; cbn [attackLines].
  - rewrite IH. apply trimLines_newest.
  - now rewrite app_nil_r.
Qed.

(** X6. The feed never shows more than 20 lines, and what it shows is the
    newest lines created, oldest first: when the list overflows, the oldest
    lines are dropped and no other. *)
Theorem feed_shows_newest_lines (ticks : list (bool * LineEnv)) :
  attackLines (feedRun ticks) =
    skipn (List.length (createdLines ticks) - 20) (createdLines ticks) /\
  List.length (attackLines (feedRun ticks)) =
    Nat.min 20 (List.length (createdLines ticks)).
Proof.
  split; [apply feed_lines_newest|].
  rewrite feed_lines_newest, length_skipn. unfold MAX_LINES. lia.
Qed.

Lemma lineOf_blocked (enabled : bool) (env : LineEnv) (line : AttackLine) :
  lineOf enabled env = Some line -> line_blocked line = enabled.
Proof.
  unfold lineOf.
  destruct (weightedRandomOrigin _ _) as [origin|]; [|discriminate].
  destruct (randomElement _ _) as [definition|]; [|discriminate].
  now intros [= <-].
Qed.

Lemma filter_split_length {A : Type} (keep : A -> bool) (l : list A) :
  (List.length (filter keep l)
   + List.length (filter (fun x => negb (keep x)) l))%nat = List.length l.
Proof.
  induction l as [|a l IH]; [reflexivity|].
  cbn [filter]. destruct (keep a); cbn [negb List.length]; lia.
Qed.

Lemma filter_skipn_length {A : Type} (keep : A -> bool) (k : nat)
    (l : list A) :
  (List.length (filter keep (skipn k l)) <= List.length (filter keep l))%nat.
Proof.
  rewrite <- (firstn_skipn k l) at 2. rewrite filter_app, length_app. lia.
Qed.

Lemma created_unblocked_bound (ticks : list (bool * LineEnv)) :
  (List.length (filter (fun line => negb (line_blocked line))
                  (createdLines ticks))
   <= List.length (filter (fun t => negb (fst t)) ticks))%nat.
Proof.
  induction ticks as [|t ticks IH]; [reflexivity|].
  unfold createdLines in *. cbn [flat_map filter].
  rewrite filter_app, length_app.
  destruct (lineOf (fst t) (snd t)) as [line|] eqn:Hline.
  - apply lineOf_blocked in Hline. cbn [filter]. rewrite Hline.
    destruct (fst t); cbn [negb List.length]; lia.
  - cbn [filter List.length]. destruct (negb (fst t)); cbn [List.length]; lia.
Qed.

Lemma feedRunIn_snoc (firings : list Firing) (x : Firing) :
  feedRunIn (firings ++ [x]) = fire x (feedRunIn firings).
Proof. unfold feedRunIn. now rewrite fold_left_app. Qed.

(** A run in which every firing invokes the updater once is a run of
    [tick]. *)
Lemma feedRunIn_once (ticks : list (bool * LineEnv)) :
  feedRunIn (map (fun t => Once (fst t) (snd t)) ticks) = feedRun ticks.
Proof.
  unfold feedRunIn, feedRun. generalize initialFeed.
  induction ticks as [|t ticks IH]; intros f; [reflexivity|].
  cbn [map fold_left fire]. apply IH.
Qed.

Lemma trimLines_length (l : list AttackLine) :
  (List.length (trimLines l) <= 20)%nat.
Proof.
  unfold trimLines, MAX_LINES.
  destruct (Nat.ltb_spec 20 (List.length l)); [rewrite length_skipn|]; lia.
Qed.

Lemma trimLines_unblocked (l : list AttackLine) :
  (List.length (filter (fun line => negb (line_blocked line)) (trimLines l))
   <= List.length (filter (fun line => negb (line_blocked line)) l))%nat.
Proof.
  unfold trimLines. destruct (MAX_LINES <? List.length l)%nat; [|lia].
  apply filter_skipn_length.
Qed.

(** What a firing does to the list: nothing, or one line appended under the
    firing's flag and the list trimmed. *)
Lemma fire_lines (x : Firing) (f : Feed) :
  attackLines (fire x f) = attackLines f \/
  exists line,
    line_blocked line = flagOf x /\
    attackLines (fire x f) = trimLines (attackLines f ++ [line]).
Proof.
  destruct x as [enabled env|enabled env1 env2 keepFirst];
    cbn [fire flagOf]; unfold tick, tickStrict, createAttackLine.
  - destruct (lineOf enabled env) as [line|] eqn:Hline; [|now left].
    right. exists line. split; [now apply lineOf_blocked in Hline|].
    reflexivity.
  - destruct keepFirst.
    + destruct (lineOf enabled env1) as [line|] eqn:Hline; [|now left].
      right. exists line. split; [now apply lineOf_blocked in Hline|].
      reflexivity.
    + destruct (lineOf enabled env2) as [line|] eqn:Hline; [|now left].
      right. exists line. split; [now apply lineOf_blocked in Hline|].
      reflexivity.
Qed.

Lemma fire_counters (x : Firing) (f : Feed) :
  cnt_total (counters (fire x f)) =
    (cnt_total (counters f) + Z.of_nat (invocations x))%Z /\
  cnt_blocked (counters (fire x f)) =
    (cnt_blocked (counters f)
     + Z.of_nat (if flagOf x then invocations x else 0%nat))%Z.
Proof.
  destruct x as [enabled env|enabled env1 env2 keepFirst];
    cbn [fire flagOf invocations]; unfold tick, tickStrict, createAttackLine.
  - destruct (lineOf enabled env); cbn [counters cnt_total cnt_blocked];
      destruct enabled; split; lia.
  - destruct (if keepFirst then lineOf enabled env1 else lineOf enabled env2);
      cbn [counters cnt_total cnt_blocked]; destruct enabled; split; lia.
Qed.

(** X7. The feed's cumulative counters count the calls of
    [createAttackLine]: [total] all of them, [blocked] those made while the
    protocol flag was on.  A firing of the timer makes one call in a
    production build and two in a development build under
    [React.StrictMode], so [total] lies between the number of firings and
    twice that number, and equals the number of firings when every updater
    ran once.  In either build the derived [activeThreats] counts visible
    unblocked lines only: it is at least 0, at most 20 and at most
    [total - blocked]. *)
Theorem feed_counters (firings : list Firing) :
  let st := feedStats (feedRunIn firings) in
  ms_total st = Z.of_nat (calls firings) /\
  ms_blocked st = Z.of_nat (blockedCalls firings) /\
  (0 <= ms_activeThreats st)%Z /\
  (ms_activeThreats st <= 20)%Z /\
  (ms_activeThreats st <= ms_total st - ms_blocked st)%Z /\
  (ms_blocked st <= ms_total st)%Z /\
  (List.length firings <= calls firings <= 2 * List.length firings)%nat /\
  (forallb isOnce firings = true ->
   ms_total st = Z.of_nat (List.length firings)).
Proof.
  intros st.
  assert (Hinv :
    cnt_total (counters (feedRunIn firings)) = Z.of_nat (calls firings) /\
    cnt_blocked (counters (feedRunIn firings))
      = Z.of_nat (blockedCalls firings) /\
    (List.length (attackLines (feedRunIn firings)) <= 20)%nat /\
    (List.length (filter (fun line => negb (line_blocked line))
                    (attackLines (feedRunIn firings)))
     + blockedCalls firings <= calls firings)%nat /\
    (blockedCalls firings <= calls firings)%nat /\
    (List.length firings <= calls firings <= 2 * List.length firings)%nat /\
    (forallb isOnce firings = true -> calls firings = List.length firings)).
  { induction firings as [|x firings IH] using rev_ind.
    - cbn. repeat split; try reflexivity; lia.
    - destruct IH as (IHt & IHb & IHlen & IHvis & IHle & IHcalls & IHonce).
      rewrite feedRunIn_snoc.
      destruct (fire_counters x (feedRunIn firings)) as [Ht Hb].
      unfold calls, blockedCalls in *.
      rewrite !map_app, !list_sum_app, length_app, forallb_app.
      cbn [map List.length forallb].
      assert (Hone : forall n, list_sum [n] = n) by (intros n; cbn; lia).
      rewrite !Hone, Ht, Hb, IHt, IHb. clear Hone.
      assert (Hx : (1 <= invocations x <= 2)%nat)
        by (destruct x; cbn; lia).
      split; [lia|]. split; [lia|].
      assert (Hlines :
        (List.length (attackLines (fire x (feedRunIn firings))) <= 20)%nat /\
        (List.length (filter (fun line => negb (line_blocked line))
                        (attackLines (fire x (feedRunIn firings))))
         <= List.length (filter (fun line => negb (line_blocked line))
                           (attackLines (feedRunIn firings)))
            + (if flagOf x then 0 else 1))%nat).
      { destruct (fire_lines x (feedRunIn firings))
          as [Hsame|(line & Hflag & Happ)].
        - rewrite Hsame. split; [exact IHlen|]. destruct (flagOf x); lia.
        - rewrite Happ. split; [apply trimLines_length|].
          pose proof (trimLines_unblocked
                        (attackLines (feedRunIn firings) ++ [line])) as Htrim.
          rewrite filter_app, length_app in Htrim. cbn [filter] in Htrim.
          rewrite Hflag in Htrim.
          destruct (flagOf x); cbn [negb List.length] in Htrim; lia. }
      destruct Hlines as [Hlen Hvis].
      split; [exact Hlen|].
      split; [destruct (flagOf x); lia|].
      split; [destruct (flagOf x); lia|].
      split; [lia|].
      intros Honce. apply andb_true_iff in Honce.
      destruct Honce as [Hall Hx1]. rewrite andb_true_r in Hx1.
      rewrite (IHonce Hall). destruct x; [cbn; lia|discriminate]. }
  destruct Hinv as (Ht & Hb & Hlen & Hvis & Hle & Hcalls & Honce).
  unfold st, feedStats. cbn [ms_total ms_blocked ms_activeThreats].
  pose proof (filter_length_le (fun line => negb (line_blocked line))
                (attackLines (feedRunIn firings))) as Hfilter.
  rewrite Ht, Hb.
  split; [reflexivity|]. split; [reflexivity|].
  split; [lia|]. split; [lia|]. split; [lia|]. split; [lia|].
  split; [exact Hcalls|].
  intros Hall. now rewrite (Honce Hall).
Qed.

(** X8. With the registries of the platform and a draw in [[0, 1)] for the
    definition, [createAttackLine] does not throw: it returns a line that
    starts in a registered origin country, ends at [targetLocation], is of a
    registered attack type and is blocked exactly when the protocol flag is
    on; the timer firing appends it to the list. *)
Theorem feed_tick_creates_line (enabled : bool) (env : LineEnv) (f : Feed) :
  0 <= definitionDraw env -> definitionDraw env < 1 ->
  exists line,
    lineOf enabled env = Some line /\
    attackLines (tick enabled env f) = trimLines (attackLines f ++ [line]) /\
    line_blocked line = enabled /\
    line_to line = targetLocation /\
    line_id line = lineId env /\
    line_timestamp line = lineNow env /\
    In (from_country (line_from line))
       (map country Registry.attackOrigins) /\
    In (line_type line) (map def_id Registry.attackDefinitions).
Proof.
  intros Hd0 Hd1.
  destruct (weightedRandomOrigin_In (originDraw env) Registry.attackOrigins)
    as (origin & Horigin & Hin_o); [discriminate|].
  destruct (randomElement_some (definitionDraw env)
              Registry.attackDefinitions Hd0 Hd1)
    as (definition & Hdef & Hin_d & _); [discriminate|].
  unfold tick, createAttackLine, lineOf. rewrite Horigin, Hdef.
  eexists. split; [reflexivity|].
  cbn [attackLines line_blocked line_to line_id line_timestamp line_from
       from_country line_type].
  repeat split; try reflexivity.
  - now apply in_map.
  - now apply in_map.
Qed.

Lemma feed_tick_creates_line_witness :
  exists line,
    lineOf true (mkLineEnv (1 # 2) (1 # 3) "l1" 1000) = Some line /\
    line_blocked line = true.
Proof.
  destruct (feed_tick_creates_line true
              (mkLineEnv (1 # 2) (1 # 3) "l1" 1000) initialFeed
              ltac:(unfold Qle; cbn; lia) ltac:(reflexivity))
    as (line & Hline & _ & Hblocked & _).
  exists line. split; assumption.
Defined.

Local Close Scope Q_scope.

(** ** The engine while the protocol is on *)

Lemma engine_run (ops : list Op) :
  engine (run ops) = exec ops initialEngine.
Proof. apply (engine_run_from ops initialWorld). Qed.

Lemma startAttack_unregistered (attackType : string) (env : StartEnv)
    (s : Engine) :
  findDefinition attackType = None -> startAttack attackType env s = s.
Proof. intros Hnone. unfold startAttack. now rewrite Hnone. Qed.

Lemma enabled_inv_start (attackType : string) (env : StartEnv) (s : Engine) :
  enabled_inv s -> enabled_inv (startAttack attackType env s).
Proof.
  intros Hinv.
  destruct (findDefinition attackType) as [definition|] eqn:Hdef;
    [|now rewrite startAttack_unregistered].
  unfold enabled_inv.
  rewrite (startAttack_protocolEnabled _ env _ Hdef),
          (startAttack_devices _ env _ Hdef),
          (startAttack_activeAttacks _ env _ Hdef),
          (startAttack_stats _ env _ Hdef).
  intros Hon. destruct (Hinv Hon) as (Hd & Ha & Ht). rewrite Hon.
  split; [exact Hd|]. split; [|exact Ht].
  intros a Hin. apply in_app_or in Hin. destruct Hin as [Hin|[<-|[]]].
  - now apply Ha.
  - reflexivity.
Qed.

Lemma enabled_inv_stop (stoppedId : string) (s : Engine) :
  enabled_inv s -> enabled_inv (stopAttack stoppedId s).
Proof.
  intros Hinv. unfold enabled_inv.
  rewrite (proj1 (stopAttack_rest stoppedId s)).
  intros Hon. destruct (Hinv Hon) as (Hd & Ha & Ht).
  rewrite stopAttack_devices, stopAttack_activeAttacks, stopAttack_stats.
  split; [|split].
  - intros d Hin.
    destruct (find _ (activeAttacks s)) as [target|]; [|now apply Hd].
    destruct (negb (blocked target) && _); [|now apply Hd].
    apply in_map_iff in Hin. destruct Hin as (d0 & <- & Hin0).
    destruct (opt_eqb _ _); [reflexivity | now apply Hd].
  - intros a Hin. apply filter_In in Hin. now apply Ha.
  - cbn [activeThreats]. rewrite Ht. reflexivity.
Qed.

Lemma enabled_inv_toggle (eid : string) (t : Z) (s : Engine) :
  enabled_inv (toggleProtocol eid t s).
Proof.
  destruct (protocolEnabled s) eqn:Hp.
  - rewrite (toggleProtocol_off _ _ _ Hp). intros Hon. discriminate Hon.
  - rewrite (toggleProtocol_on _ _ _ Hp). intros _.
    cbn [devices activeAttacks stats activeThreats].
    split; [|split; [|reflexivity]].
    + intros d Hin. apply in_map_iff in Hin. now destruct Hin as (? & <- & _).
    + intros a Hin. apply in_map_iff in Hin. now destruct Hin as (? & <- & _).
Qed.

Lemma enabled_inv_step (op : Op) (s : Engine) :
  enabled_inv s -> enabled_inv (step op s).
Proof.
  intros Hinv. destruct op; cbn [step].
  - now apply enabled_inv_start.
  - now apply enabled_inv_stop.
  - apply enabled_inv_toggle.
  - exact Hinv.
Qed.

(** A property of the initial engine that every action preserves holds
    after every sequence of actions. *)
Lemma exec_ind (P : Engine -> Prop) :
  P initialEngine ->
  (forall op s, P s -> P (step op s)) ->
  forall ops, P (exec ops initialEngine).
Proof.
  intros Hinit Hstep ops. unfold exec.
  generalize initialEngine Hinit. clear Hinit.
  induction ops as [|op ops IH]; intros s Hs; [exact Hs|].
  cbn [fold_left]. apply IH. now apply Hstep.
Qed.

Lemma enabled_inv_exec (ops : list Op) :
  enabled_inv (exec ops initialEngine).
Proof.
  apply (exec_ind enabled_inv).
  - intros _. split; [|split; [intros a []|reflexivity]].
    intros d Hin. cbn in Hin.
    repeat (destruct Hin as [<-|Hin]; [reflexivity|]). destruct Hin.
  - intros op s. apply enabled_inv_step.
Qed.

(** X9. After any sequence of actions that leaves the protocol on, every device
    is secure, every active attack is blocked and [stats.activeThreats] is
    0: attacks started while the protocol is on never change a device. *)
Theorem protocol_on_keeps_devices_secure (ops : list Op) :
  protocolEnabled (exec ops initialEngine) = true ->
  (forall d, In d (devices (exec ops initialEngine)) -> status d = SECURE) /\
  (forall a, In a (activeAttacks (exec ops initialEngine)) ->
             blocked a = true) /\
  activeThreats (stats (exec ops initialEngine)) = 0.
Proof. apply enabled_inv_exec. Qed.

Lemma protocol_on_keeps_devices_secure_witness :
  activeThreats
    (stats (exec (cameraRun ++ [ToggleProtocol "t1" 3000;
                               StartAttack "replay_attack"
                                 (mkStartEnv 0 "a3" "e3" 4000 4000)])
              initialEngine)) = 0.
Proof.
  refine (proj2 (proj2 (protocol_on_keeps_devices_secure _ _))).
  vm_compute; reflexivity.
Defined.

(** ** The counters *)

Lemma stats_inv_start (attackType : string) (env : StartEnv) (s : Engine) :
  stats_inv s -> stats_inv (startAttack attackType env s).
Proof.
  intros Hinv.
  destruct (findDefinition attackType) as [definition|] eqn:Hdef;
    [|now rewrite startAttack_unregistered].
  unfold stats_inv in *.
  rewrite (startAttack_stats _ env _ Hdef),
          (startAttack_attackTimestamps _ env _ Hdef).
  cbn [activeThreats blockedAttacks totalAttacks attacksPerMinute].
  pose proof (filter_length_le (fun t => statsNow env - 60000 <? t)
                (attackTimestamps s ++ [now env])) as Hlen.
  rewrite length_app in Hlen. cbn [List.length] in Hlen.
  destruct (protocolEnabled s); lia.
Qed.

Lemma stats_inv_stop (stoppedId : string) (s : Engine) :
  stats_inv s -> stats_inv (stopAttack stoppedId s).
Proof.
  intros Hinv. unfold stats_inv in *.
  rewrite stopAttack_stats, (proj2 (proj2 (stopAttack_rest stoppedId s))).
  cbn [activeThreats blockedAttacks totalAttacks attacksPerMinute]. lia.
Qed.

Lemma stats_inv_toggle (eid : string) (t : Z) (s : Engine) :
  stats_inv s -> stats_inv (toggleProtocol eid t s).
Proof.
  intros Hinv. unfold stats_inv in *.
  destruct (protocolEnabled s) eqn:Hp.
  - rewrite (toggleProtocol_off _ _ _ Hp). exact Hinv.
  - rewrite (toggleProtocol_on _ _ _ Hp).
    cbn [stats attackTimestamps activeThreats blockedAttacks totalAttacks
         attacksPerMinute]. lia.
Qed.

Lemma stats_inv_step (op : Op) (s : Engine) :
  stats_inv s -> stats_inv (step op s).
Proof.
  intros Hinv. destruct op; cbn [step].
  - now apply stats_inv_start.
  - now apply stats_inv_stop.
  - now apply stats_inv_toggle.
  - exact Hinv.
Qed.

Lemma stats_inv_exec (ops : list Op) : stats_inv (exec ops initialEngine).
Proof.
  apply (exec_ind stats_inv); [|apply stats_inv_step].
  unfold stats_inv. cbn. lia.
Qed.

Lemma totalAttacks_recorded_step (w : World) (op : Op) :
  totalAttacks (stats (engine w)) = Z.of_nat (List.length (recorded w)) ->
  totalAttacks (stats (engine (observe op w))) =
  Z.of_nat (List.length (recorded (observe op w))).
Proof.
  intros Hinv. destruct op as [attackType env|stoppedId|eid t|];
    unfold observe; cbn [engine recorded step].
  - destruct (findDefinition attackType) as [definition|] eqn:Hdef;
      cbn [engine recorded].
    + rewrite (startAttack_stats _ env _ Hdef), length_app.
      cbn [totalAttacks List.length]. lia.
    + now rewrite startAttack_unregistered.
  - rewrite stopAttack_stats. exact Hinv.
  - destruct (protocolEnabled (engine w)) eqn:Hp.
    + now rewrite (toggleProtocol_off _ _ _ Hp).
    + now rewrite (toggleProtocol_on _ _ _ Hp).
  - exact Hinv.
Qed.

(** X10. After any sequence of actions the counters are consistent:
    [activeThreats], [blockedAttacks] and [attacksPerMinute] are not
    negative, blocked and active threats together never exceed
    [totalAttacks], [attacksPerMinute] never exceeds it either, and
    [totalAttacks] is the number of calls of [startAttack] with a
    registered type, each of which recorded one timestamp. *)
Theorem stats_counters_consistent (ops : list Op) :
  let st := stats (engine (run ops)) in
  0 <= activeThreats st /\
  0 <= blockedAttacks st /\
  blockedAttacks st + activeThreats st <= totalAttacks st /\
  0 <= attacksPerMinute st <= totalAttacks st /\
  totalAttacks st = Z.of_nat (List.length (recorded (run ops))).
Proof.
  intros st. unfold st.
  pose proof (stats_inv_exec ops) as (H1 & H2 & H3 & H4 & _).
  change initialEngine with (engine initialWorld) in H1, H2, H3, H4.
  rewrite <- (engine_run_from ops initialWorld) in H1, H2, H3, H4.
  fold (run ops) in H1, H2, H3, H4.
  split; [exact H1|]. split; [exact H2|]. split; [exact H3|].
  split; [exact H4|].
  clear H1 H2 H3 H4. unfold run.
  assert (Hinit : totalAttacks (stats (engine initialWorld)) =
                  Z.of_nat (List.length (recorded initialWorld)))
    by reflexivity.
  revert Hinit. generalize initialWorld.
  induction ops as [|op ops IH]; intros w Hw; [exact Hw|].
  change (run_from w (op :: ops)) with (run_from (observe op w) ops).
  apply IH. now apply totalAttacks_recorded_step.
Qed.

(** ** The device list *)

Lemma map_info_of_status (f : Device -> Device) (l : list Device) :
  (forall d, info_of (f d) = info_of d) ->
  map info_of (map f l) = map info_of l.
Proof.
  intros Hf. rewrite map_map. apply map_ext. exact Hf.
Qed.

Lemma device_infos_step (op : Op) (s : Engine) :
  map info_of (devices (step op s)) = map info_of (devices s).
Proof.
  destruct op as [attackType env|stoppedId|eid t|]; cbn [step].
  - destruct (findDefinition attackType) as [definition|] eqn:Hdef;
      [|now rewrite startAttack_unregistered].
    rewrite (startAttack_devices _ env _ Hdef).
    destruct (protocolEnabled s); [reflexivity|].
    apply map_info_of_status. intros d. now destruct (opt_eqb _ _).
  - rewrite stopAttack_devices.
    destruct (find _ (activeAttacks s)) as [target|]; [|reflexivity].
    destruct (negb (blocked target) && _); [|reflexivity].
    apply map_info_of_status. intros d. now destruct (opt_eqb _ _).
  - destruct (protocolEnabled s) eqn:Hp.
    + now rewrite (toggleProtocol_off _ _ _ Hp).
    + rewrite (toggleProtocol_on _ _ _ Hp). cbn [devices].
      now apply map_info_of_status.
  - reflexivity.
Qed.

Lemma device_infos_exec (ops : list Op) :
  map info_of (devices (exec ops initialEngine)) = Registry.devices.
Proof.
  apply (exec_ind (fun s => map info_of (devices s) = Registry.devices));
    [reflexivity|].
  intros op s Hs. now rewrite device_infos_step.
Qed.

(** X11. No action adds, removes, reorders or edits a device: after any sequence
    of actions the device list is the registry, entry by entry, and only the
    statuses may differ from the initial ones. *)
Theorem device_list_is_fixed (ops : list Op) :
  map info_of (devices (exec ops initialEngine)) = Registry.devices /\
  List.length (devices (exec ops initialEngine)) = 6%nat.
Proof.
  split; [apply device_infos_exec|].
  rewrite <- (length_map info_of), device_infos_exec. reflexivity.
Qed.

(** ** The threat counter never overcounts *)

Lemma unblockedCount_start (attackType : string) (env : StartEnv)
    (s : Engine) (definition : AttackDefinition) :
  findDefinition attackType = Some definition ->
  unblockedCount (startAttack attackType env s) =
  unblockedCount s + (if protocolEnabled s then 0 else 1).
Proof.
  intros Hdef. unfold unblockedCount.
  rewrite (startAttack_activeAttacks _ env _ Hdef), filter_app, length_app.
  cbn [filter blocked]. destruct (protocolEnabled s); cbn [negb List.length];
    lia.
Qed.

(** With distinct ids, a stop removes at most the one attack it found from
    any count. *)
Lemma count_split_stopped (stoppedId : string) (keep : Attack -> bool)
    (l : list Attack) :
  NoDup (map id l) ->
  (List.length (filter keep l) <=
   S (List.length
        (filter keep
           (filter (fun a => negb (String.eqb (id a) stoppedId)) l))))%nat /\
  (List.length
     (filter keep (filter (fun a => negb (String.eqb (id a) stoppedId)) l))
   <= List.length (filter keep l))%nat /\
  (forall target,
      find (fun a => String.eqb (id a) stoppedId) l = Some target ->
      keep target = true ->
      List.length (filter keep l) =
      S (List.length
           (filter keep
              (filter (fun a => negb (String.eqb (id a) stoppedId)) l)))).
Proof.
  induction l as [|a l IH]; intros Hnd.
  - cbn. repeat split; try lia. discriminate.
  - cbn [map] in Hnd. apply NoDup_cons_iff in Hnd.
    destruct Hnd as [Hnew Hnd]. destruct (IH Hnd) as (IH1 & IH2 & IH3).
    cbn [filter find].
    destruct (String.eqb (id a) stoppedId) eqn:Ha; cbn [negb].
    + assert (Hkeep :
        filter (fun a0 => negb (String.eqb (id a0) stoppedId)) l = l).
      { pose proof (find_none_filter stoppedId l) as Hnone.
        cbv zeta in Hnone. apply Hnone.
        destruct (find _ l) as [b|] eqn:Hb; [|reflexivity].
        apply find_some in Hb. destruct Hb as [Hin Hb].
        exfalso. apply Hnew. apply String.eqb_eq in Ha, Hb.
        rewrite Ha, <- Hb. now apply in_map. }
      rewrite Hkeep in *.
      split; [|split].
      * destruct (keep a); cbn [List.length]; lia.
      * destruct (keep a); cbn [List.length]; lia.
      * intros target [= <-] Hk. rewrite Hk. reflexivity.
    + cbn [filter].
      split; [|split].
      * destruct (keep a); cbn [List.length]; lia.
      * destruct (keep a); cbn [List.length]; lia.
      * intros target Hfind Hk. specialize (IH3 target Hfind Hk).
        destruct (keep a); cbn [List.length]; lia.
Qed.

Lemma threats_inv_stop (stoppedId : string) (s : Engine) :
  threats_inv s -> threats_inv (stopAttack stoppedId s).
Proof.
  intros [Hnd Hle]. split.
  - rewrite stopAttack_activeAttacks. now apply ids_distinct_filter.
  - unfold unblockedCount in *.
    rewrite stopAttack_activeAttacks, stopAttack_stats.
    cbn [activeThreats].
    destruct (count_split_stopped stoppedId (fun a => negb (blocked a))
                (activeAttacks s) Hnd) as (H1 & H2 & _).
    lia.
Qed.

Lemma unblockedCount_all_blocked (l : list Attack) :
  filter (fun a => negb (blocked a)) (map (withBlocked true) l) = [].
Proof. induction l as [|a l IH]; [reflexivity|exact IH]. Qed.

Lemma threats_inv_toggle (eid : string) (t : Z) (s : Engine) :
  threats_inv s -> threats_inv (toggleProtocol eid t s).
Proof.
  intros [Hnd Hle].
  destruct (protocolEnabled s) eqn:Hp.
  - rewrite (toggleProtocol_off _ _ _ Hp). split; assumption.
  - rewrite (toggleProtocol_on _ _ _ Hp). split.
    + cbn [activeAttacks]. rewrite map_map. exact Hnd.
    + unfold unblockedCount. cbn [activeAttacks stats activeThreats].
      rewrite unblockedCount_all_blocked. reflexivity.
Qed.

Lemma threats_inv_step (w : World) (op : Op) :
  threats_inv (engine w) -> op_ok w op = true ->
  threats_inv (engine (observe op w)).
Proof.
  intros Hinv Hok. rewrite engine_observe.
  destruct op as [attackType env|stoppedId|eid t|]; cbn [step].
  - destruct (findDefinition attackType) as [definition|] eqn:Hdef;
      [|now rewrite startAttack_unregistered].
    destruct (op_ok_start _ _ _ _ Hdef Hok) as (_ & _ & _ & _ & Hfresh).
    destruct Hinv as [Hnd Hle]. split.
    + rewrite (startAttack_activeAttacks _ env _ Hdef).
      now apply fresh_NoDup with (i := attackId env).
    + rewrite (unblockedCount_start _ env _ _ Hdef),
              (startAttack_stats _ env _ Hdef).
      cbn [activeThreats]. destruct (protocolEnabled (engine w)); lia.
  - now apply threats_inv_stop.
  - now apply threats_inv_toggle.
  - exact Hinv.
Qed.

(** X12. After every admissible run [stats.activeThreats] is at least 0 and at
    most the number of active attacks that are not blocked: the counter may
    fall short of that number, it never exceeds it. *)
Theorem activeThreats_never_overcounts (ops : list Op) :
  admissible ops = true ->
  0 <= activeThreats (stats (engine (run ops)))
    <= unblockedCount (engine (run ops)).
Proof.
  intros Hadm. split.
  - rewrite engine_run. apply (stats_inv_exec ops).
  - apply (admissible_run_ind (fun w => threats_inv (engine w)));
      [|apply threats_inv_step|exact Hadm].
    split; [constructor|reflexivity].
Qed.

Lemma activeThreats_never_overcounts_witness :
  0 <= activeThreats (stats (engine (run stopBlockedRun)))
    <= unblockedCount (engine (run stopBlockedRun)).
Proof.
  apply activeThreats_never_overcounts. vm_compute; reflexivity.
Defined.

(** ** What an attack targets *)

(** The registries agree: every definition has a non-empty target pool made
    of registered device ids, and its id finds it. *)
Lemma registry_consistent (definition : AttackDefinition) :
  In definition Registry.attackDefinitions ->
  findDefinition (def_id definition) = Some definition /\
  def_targetDevices definition <> [] /\
  forall d, In d (def_targetDevices definition) ->
            In d (map dev_id Registry.devices).
Proof.
  intros Hin. cbn in Hin.
  repeat (destruct Hin as [<-|Hin];
          [split; [reflexivity|]; split; [discriminate|];
           intros d Hd; cbn in Hd |- *;
           repeat (destruct Hd as [<-|Hd]; [tauto|]); destruct Hd|]).
  destruct Hin.
Qed.

Lemma findDefinition_registered (attackType : string)
    (definition : AttackDefinition) :
  findDefinition attackType = Some definition ->
  In definition Registry.attackDefinitions /\ def_id definition = attackType.
Proof.
  intros Hdef. apply find_some in Hdef. destruct Hdef as [Hin Heq].
  now apply String.eqb_eq in Heq.
Qed.

Lemma target_inv_step (w : World) (op : Op) :
  target_inv (engine w) -> op_ok w op = true ->
  target_inv (engine (observe op w)).
Proof.
  intros Hinv Hok. rewrite engine_observe.
  destruct op as [attackType env|stoppedId|eid t|]; cbn [step].
  - destruct (findDefinition attackType) as [definition|] eqn:Hdef;
      [|now rewrite startAttack_unregistered].
    destruct (op_ok_start _ _ _ _ Hdef Hok) as (Hr0 & Hr1 & _).
    destruct (findDefinition_registered _ _ Hdef) as [Hreg _].
    destruct (registry_consistent _ Hreg) as (Hfind & Hne & Hpool).
    destruct (randomElement_some (rnd env)
                (def_targetDevices definition) Hr0 Hr1 Hne)
      as (d & Hd & Hin & _).
    intros a Ha. rewrite (startAttack_activeAttacks _ env _ Hdef) in Ha.
    apply in_app_or in Ha. destruct Ha as [Ha|[<-|[]]]; [now apply Hinv|].
    exists definition, d. cbn [type severity targetDeviceId].
    split; [exact Hfind|]. split; [reflexivity|]. split; [exact Hd|].
    split; [exact Hin | now apply Hpool].
  - intros a Ha. rewrite stopAttack_activeAttacks in Ha.
    apply filter_In in Ha. now apply Hinv.
  - destruct (protocolEnabled (engine w)) eqn:Hp.
    + now rewrite (toggleProtocol_off _ _ _ Hp).
    + rewrite (toggleProtocol_on _ _ _ Hp). intros a Ha.
      cbn [activeAttacks] in Ha. apply in_map_iff in Ha.
      destruct Ha as (a0 & <- & Ha0). exact (Hinv a0 Ha0).
  - exact Hinv.
Qed.

(** X13. After every admissible run each active attack is an instance of a
    registered definition, carries that definition's severity, and targets a
    device that is both in the definition's [targetDevices] and in the
    device list of the engine. *)
Theorem attacks_target_registered_devices (ops : list Op) :
  admissible ops = true ->
  forall a, In a (activeAttacks (engine (run ops))) ->
    exists definition d,
      findDefinition (type a) = Some definition /\
      severity a = def_severity definition /\
      targetDeviceId a = Some d /\
      In d (def_targetDevices definition) /\
      In d (map id_of (devices (engine (run ops)))).
Proof.
  intros Hadm a Ha.
  assert (Hinv : target_inv (engine (run ops))).
  { apply (admissible_run_ind (fun w => target_inv (engine w)));
      [intros x []|apply target_inv_step|exact Hadm]. }
  destruct (Hinv a Ha) as (definition & d & H1 & H2 & H3 & H4 & H5).
  exists definition, d. repeat split; try assumption.
  unfold id_of. rewrite <- (map_map info_of dev_id), engine_run.
  now rewrite device_infos_exec.
Qed.

Lemma attacks_target_registered_devices_witness :
  exists a definition d,
    In a (activeAttacks (engine (run cameraRun))) /\
    findDefinition (type a) = Some definition /\
    targetDeviceId a = Some d /\
    In d (def_targetDevices definition).
Proof.
  pose proof (attacks_target_registered_devices cameraRun
                ltac:(vm_compute; reflexivity)) as Hall.
  destruct (activeAttacks (engine (run cameraRun))) as [|a l] eqn:Hactive.
  - vm_compute in Hactive. discriminate Hactive.
  - destruct (Hall a (or_introl eq_refl))
      as (definition & d & H1 & _ & H3 & H4 & _).
    exists a, definition, d.
    split; [now left|]. split; [exact H1|]. split; [exact H3|exact H4].
Defined.

(** ** The engine's timer *)

(** X14. With a draw in [[0, 1)] the timer's callback does not throw: it starts
    an attack of a registered type, so the call is never the silent no-op,
    the list of active attacks grows by exactly one attack of that type and
    [totalAttacks] by one. *)
Theorem autoAttack_starts_one_attack (definitionDraw : Q) (env : StartEnv)
    (s : Engine) :
  (0 <= definitionDraw)%Q -> (definitionDraw < 1)%Q ->
  exists definition s',
    In definition Registry.attackDefinitions /\
    autoAttack definitionDraw env s = Some s' /\
    s' = startAttack (def_id definition) env s /\
    (exists a, activeAttacks s' = activeAttacks s ++ [a] /\
               type a = def_id definition /\
               blocked a = protocolEnabled s) /\
    totalAttacks (stats s') = totalAttacks (stats s) + 1.
Proof.
  intros Hd0 Hd1.
  destruct (randomElement_some definitionDraw
              Registry.attackDefinitions Hd0 Hd1)
    as (definition & Hdraw & Hin & _); [discriminate|].
  destruct (registry_consistent _ Hin) as (Hfind & _).
  exists definition, (startAttack (def_id definition) env s).
  unfold autoAttack. rewrite Hdraw.
  split; [exact Hin|]. split; [reflexivity|]. split; [reflexivity|].
  rewrite (startAttack_activeAttacks _ env _ Hfind),
          (startAttack_stats _ env _ Hfind).
  split; [|reflexivity].
  eexists. split; [reflexivity|]. split; reflexivity.
Qed.

Lemma autoAttack_starts_one_attack_witness :
  exists definition s',
    In definition Registry.attackDefinitions /\
    autoAttack (5 # 6) (mkStartEnv 0 "a1" "e1" 1000 1000) initialEngine
      = Some s' /\
    s' = startAttack (def_id definition)
           (mkStartEnv 0 "a1" "e1" 1000 1000) initialEngine /\
    (exists a, activeAttacks s' = activeAttacks initialEngine ++ [a] /\
               type a = def_id definition /\
               blocked a = protocolEnabled initialEngine) /\
    totalAttacks (stats s') = totalAttacks (stats initialEngine) + 1.
Proof.
  apply autoAttack_starts_one_attack.
  - unfold Qle; cbn; lia.
  - reflexivity.
Defined.

(** ** Stopping attacks *)

Lemma stopped_id_is_fresh (stoppedId : string) (s : Engine) :
  fresh stoppedId (activeAttacks (stopAttack stoppedId s)) = true.
Proof.
  unfold fresh. rewrite stopAttack_activeAttacks. apply negb_true_iff.
  induction (activeAttacks s) as [|a l IH]; [reflexivity|].
  cbn [filter]. destruct (String.eqb (id a) stoppedId) eqn:Ha; cbn [negb].
  - exact IH.
  - cbn [existsb]. now rewrite Ha.
Qed.

(** X15. After [stopAttack(i)] no active attack has the id [i], whatever the
    state was; a second [stopAttack(i)] therefore changes neither the active
    attacks nor any device status, log entry, flag, timestamp or cumulative
    counter.  Its only effect is on [activeThreats], which it lowers by one
    unless it is already 0. *)
Theorem stopAttack_twice (stoppedId : string) (s : Engine) :
  let s1 := stopAttack stoppedId s in
  let s2 := stopAttack stoppedId s1 in
  (forall a, In a (activeAttacks s1) -> id a <> stoppedId) /\
  activeAttacks s2 = activeAttacks s1 /\
  devices s2 = devices s1 /\
  events s2 = events s1 /\
  protocolEnabled s2 = protocolEnabled s1 /\
  attackTimestamps s2 = attackTimestamps s1 /\
  totalAttacks (stats s2) = totalAttacks (stats s1) /\
  blockedAttacks (stats s2) = blockedAttacks (stats s1) /\
  attacksPerMinute (stats s2) = attacksPerMinute (stats s1) /\
  activeThreats (stats s2) = Z.max 0 (activeThreats (stats s1) - 1).
Proof.
  intros s1 s2. split.
  - intros a Ha Heq. unfold s1 in Ha. rewrite stopAttack_activeAttacks in Ha.
    apply filter_In in Ha. destruct Ha as [_ Ha].
    apply String.eqb_eq in Heq. rewrite Heq in Ha. discriminate Ha.
  - unfold s2. rewrite (stopAttack_stale stoppedId s1)
      by apply stopped_id_is_fresh.
    repeat split; reflexivity.
Qed.

Lemma fold_stop_ind (P : Engine -> Prop) :
  (forall i s, P s -> P (stopAttack i s)) ->
  forall (l : list Attack) (s : Engine),
    P s -> P (fold_left (fun acc a => stopAttack (id a) acc) l s).
Proof.
  intros Hstop l. induction l as [|a l IH]; intros s Hs; [exact Hs|].
  cbn [fold_left]. apply IH. now apply Hstop.
Qed.

Lemma fold_stop_empties (l : list Attack) :
  forall s,
    (forall a, In a (activeAttacks s) -> exists b, In b l /\ id b = id a) ->
    activeAttacks (fold_left (fun acc a => stopAttack (id a) acc) l s) = [].
Proof.
  induction l as [|b l IH]; intros s Hcover.
  - cbn [fold_left]. destruct (activeAttacks s) as [|a rest];
      [reflexivity|].
    destruct (Hcover a (or_introl eq_refl)) as (? & [] & _).
  - cbn [fold_left]. apply IH. intros a Ha.
    rewrite stopAttack_activeAttacks in Ha. apply filter_In in Ha.
    destruct Ha as [Ha Hne].
    destruct (Hcover a Ha) as (b' & [<-|Hb'] & Hid).
    + rewrite Hid, String.eqb_refl in Hne. discriminate Hne.
    + now exists b'.
Qed.


Lemma same_frame_stop (s : Engine) (i : string) (s' : Engine) :
  same_frame s s' -> same_frame s (stopAttack i s').
Proof.
  intros (H1 & H2 & H3 & H4 & H5 & H6 & H7). unfold same_frame.
  destruct (stopAttack_rest i s') as (R1 & R2 & R3).
  rewrite R1, R2, R3, stopAttack_stats.
  cbn [totalAttacks blockedAttacks attacksPerMinute].
  change (stopAttack i s') with (step (StopAttack i) s').
  rewrite device_infos_step. tauto.
Qed.

(** X16. "Stop all" on the home page, from the state reached by any admissible
    run: no attack stays active, every device is secure again and
    [activeThreats] is 0, while the flag, the event log, the timestamp
    window and the cumulative counters are as before. *)
Theorem stopAllAttacks_clears_threats (ops : list Op) :
  admissible ops = true ->
  let s := engine (run ops) in
  let s' := stopAllAttacks s in
  activeAttacks s' = [] /\
  (forall d, In d (devices s') -> status d = SECURE) /\
  map id_of (devices s') = map id_of (devices s) /\
  activeThreats (stats s') = 0 /\
  protocolEnabled s' = protocolEnabled s /\
  events s' = events s /\
  attackTimestamps s' = attackTimestamps s /\
  totalAttacks (stats s') = totalAttacks (stats s) /\
  blockedAttacks (stats s') = blockedAttacks (stats s) /\
  attacksPerMinute (stats s') = attacksPerMinute (stats s).
Proof.
  intros Hadm s s'. unfold s', stopAllAttacks.
  set (l := activeAttacks s).
  assert (Hempty : activeAttacks
            (fold_left (fun acc a => stopAttack (id a) acc) l s) = []).
  { apply fold_stop_empties. intros a Ha. now exists a. }
  assert (Hstatus : status_inv
            (fold_left (fun acc a => stopAttack (id a) acc) l s)).
  { apply fold_stop_ind; [intros; now apply status_inv_stop|].
    now apply status_inv_run. }
  assert (Hthreats : threats_inv
            (fold_left (fun acc a => stopAttack (id a) acc) l s)).
  { apply fold_stop_ind; [intros; now apply threats_inv_stop|].
    apply (admissible_run_ind (fun w => threats_inv (engine w)));
      [|apply threats_inv_step|exact Hadm].
    split; [constructor|reflexivity]. }
  assert (Hstats : stats_inv
            (fold_left (fun acc a => stopAttack (id a) acc) l s)).
  { apply fold_stop_ind; [intros; now apply stats_inv_stop|].
    unfold s. rewrite engine_run. apply stats_inv_exec. }
  assert (Hframe : same_frame s
            (fold_left (fun acc a => stopAttack (id a) acc) l s)).
  { apply (fold_stop_ind (same_frame s));
      [intros; now apply same_frame_stop|].
    unfold same_frame. tauto. }
  destruct Hframe as (F1 & F2 & F3 & F4 & F5 & F6 & F7).
  split; [exact Hempty|].
  split.
  { intros d Hd. destruct Hstatus as [_ Hst]. specialize (Hst d Hd).
    rewrite Hempty in Hst. cbn [existsb] in Hst.
    unfold isSecure in Hst. now destruct (status d). }
  split.
  { unfold id_of. rewrite <- !(map_map info_of dev_id). now rewrite F7. }
  split.
  { destruct Hthreats as [_ Hle]. destruct Hstats as (Hge & _).
    unfold unblockedCount in Hle. rewrite Hempty in Hle.
    cbn [filter List.length] in Hle. lia. }
  tauto.
Qed.

Lemma stopAllAttacks_clears_threats_witness :
  activeAttacks (stopAllAttacks (engine (run doubleStopRun))) = [].
Proof.
  refine (proj1 (stopAllAttacks_clears_threats doubleStopRun _)).
  vm_compute; reflexivity.
Defined.

(** ** Toggling off and on again *)

Lemma map_withStatus_secure (l : list Device) :
  (forall d, In d l -> status d = SECURE) -> map (withStatus SECURE) l = l.
Proof.
  intros Hall. rewrite <- (map_id l) at 2. apply map_ext_in.
  intros d Hd. specialize (Hall d Hd). destruct d as [i st].
  cbn in Hall. now subst st.
Qed.

Lemma map_withBlocked_true (l : list Attack) :
  (forall a, In a l -> blocked a = true) -> map (withBlocked true) l = l.
Proof.
  intros Hall. rewrite <- (map_id l) at 2. apply map_ext_in.
  intros a Ha. specialize (Hall a Ha). destruct a. cbn in Hall.
  now subst.
Qed.

(** X17. From a state reached with the protocol on, switching the protocol off
    and on again restores the devices, the active attacks, the stats, the
    flag and the timestamp window exactly: of the whole state only the event
    log, to which the toggles write, can differ. *)
Theorem toggle_off_on_round_trip (ops : list Op) (eid1 eid2 : string)
    (t1 t2 : Z) :
  let s := exec ops initialEngine in
  protocolEnabled s = true ->
  let s' := toggleProtocol eid2 t2 (toggleProtocol eid1 t1 s) in
  devices s' = devices s /\
  activeAttacks s' = activeAttacks s /\
  stats s' = stats s /\
  protocolEnabled s' = true /\
  attackTimestamps s' = attackTimestamps s.
Proof.
  intros s Hon s'.
  destruct (enabled_inv_exec ops Hon) as (Hd & Ha & Ht).
  fold s in Hd, Ha, Ht.
  unfold s'. rewrite (toggleProtocol_off _ _ _ Hon).
  rewrite toggleProtocol_on by reflexivity.
  cbn [devices activeAttacks stats protocolEnabled attackTimestamps events].
  rewrite (map_withStatus_secure _ Hd), (map_withBlocked_true _ Ha), Ht.
  repeat split; try reflexivity.
  destruct (stats s) as [tot blk thr apm]. cbn in *. f_equal; lia.
Qed.

Lemma toggle_off_on_round_trip_witness :
  stats (toggleProtocol "t2" 20
           (toggleProtocol "t1" 10
              (exec [StartAttack "denial_of_service"
                       (mkStartEnv 0 "b1" "e1" 5 5)] initialEngine))) =
  stats (exec [StartAttack "denial_of_service"
                 (mkStartEnv 0 "b1" "e1" 5 5)] initialEngine).
Proof.
  refine (proj1 (proj2 (proj2
    (toggle_off_on_round_trip
       [StartAttack "denial_of_service" (mkStartEnv 0 "b1" "e1" 5 5)]
       "t1" "t2" 10 20 _)))).
  vm_compute; reflexivity.
Defined.

(** ** What the pages derive from the stats *)

(** X18. After any sequence of actions the dashboard's risk label is "Low"
    exactly when the protocol is on; while it is on the header's threat
    level is "low" too, and in general the header shows "low" exactly when
    [activeThreats] is 0, whether or not the protocol is on. *)
Theorem risk_label_follows_protocol (ops : list Op) :
  let s := exec ops initialEngine in
  (risk_label (deriveRiskMeta (stats s) (protocolEnabled s)) = "Low" <->
   protocolEnabled s = true) /\
  (protocolEnabled s = true -> threatLevel (stats s) = "low") /\
  (threatLevel (stats s) = "low" <-> activeThreats (stats s) = 0) /\
  1 <= risk_value (deriveRiskMeta (stats s) (protocolEnabled s)) <= 4.
Proof.
  intros s.
  pose proof (stats_inv_exec ops) as (Hge & _). fold s in Hge.
  assert (Hlow : threatLevel (stats s) = "low" <->
                 activeThreats (stats s) = 0).
  { unfold threatLevel.
    destruct (Z.leb_spec 4 (activeThreats (stats s)));
      [split; [discriminate|lia]|].
    destruct (Z.leb_spec 2 (activeThreats (stats s)));
      [split; [discriminate|lia]|].
    destruct (Z.leb_spec 1 (activeThreats (stats s)));
      [split; [discriminate|lia]|].
    split; [lia|reflexivity]. }
  split; [|split; [|split; [exact Hlow|]]].
  - unfold deriveRiskMeta. split.
    + destruct (protocolEnabled s); [reflexivity|]. cbn [andb].
      destruct (activeThreats (stats s) <=? 2); [discriminate|].
      destruct (activeThreats (stats s) <=? 4); discriminate.
    + intros Hon.
      destruct (enabled_inv_exec ops Hon) as (_ & _ & Ht).
      fold s in Ht. rewrite Hon, Ht. reflexivity.
  - intros Hon.
    destruct (enabled_inv_exec ops Hon) as (_ & _ & Ht).
    now apply Hlow.
  - unfold deriveRiskMeta.
    destruct (protocolEnabled s && _); [cbn; lia|].
    destruct (activeThreats (stats s) <=? 2); [cbn; lia|].
    destruct (activeThreats (stats s) <=? 4); cbn; lia.
Qed.

(** X19. After any sequence of actions the dashboard's blocked rate is a
    percentage: an integer between 0 and 100, and 100 while no attack has
    been counted. *)
Theorem blockedRate_is_a_percentage (ops : list Op) :
  let st := stats (exec ops initialEngine) in
  0 <= blockedRate st <= 100 /\
  (totalAttacks st = 0 -> blockedRate st = 100).
Proof.
  intros st.
  pose proof (stats_inv_exec ops) as (Hthr & Hblk & Hsum & _).
  fold st in Hthr, Hblk, Hsum.
  unfold blockedRate.
  destruct (Z.eqb_spec (totalAttacks st) 0) as [Hzero|Hpos];
    [split; [lia|reflexivity]|].
  split; [|intros Hz; contradiction].
  assert (Ht : (inject_Z 0 < inject_Z (totalAttacks st))%Q)
    by (rewrite <- Zlt_Qlt; lia).
  assert (Hb0 : (inject_Z 0 <= inject_Z (blockedAttacks st))%Q)
    by (rewrite <- Zle_Qle; lia).
  assert (Hbt : (inject_Z (blockedAttacks st)
                 <= inject_Z (totalAttacks st))%Q)
    by (rewrite <- Zle_Qle; lia).
  change (inject_Z 0) with 0%Q in Ht, Hb0.
  assert (Hq0 : (0 <= inject_Z (blockedAttacks st)
                      / inject_Z (totalAttacks st))%Q).
  { apply Qle_shift_div_l; [exact Ht|]. lra. }
  assert (Hq1 : (inject_Z (blockedAttacks st)
                 / inject_Z (totalAttacks st) <= 1)%Q).
  { apply Qle_shift_div_r; [exact Ht|]. lra. }
  unfold mathRound.
  generalize dependent (inject_Z (blockedAttacks st)
                        / inject_Z (totalAttacks st))%Q.
  intros q Hq0 Hq1. split.
  - apply Z.le_trans with (Qfloor (1 # 2)); [discriminate|].
    apply Qfloor_resp_le. lra.
  - apply Z.le_trans with (Qfloor (201 # 2)); [|discriminate].
    apply Qfloor_resp_le. lra.
Qed.

(** ** The list of active attacks *)

Lemma StronglySorted_snoc {A : Type} (R : A -> A -> Prop) (l : list A)
    (x : A) :
  StronglySorted R l -> Forall (fun y => R y x) l ->
  StronglySorted R (l ++ [x]).
Proof.
  induction 1 as [|a l Hl IH Ha]; intros Hall; cbn [app].
  - repeat constructor.
  - inversion Hall as [|? ? Hax Hrest]; subst.
    constructor; [now apply IH|].
    apply Forall_app. split; [exact Ha | now repeat constructor].
Qed.

Lemma StronglySorted_filter {A : Type} (R : A -> A -> Prop)
    (keep : A -> bool) (l : list A) :
  StronglySorted R l -> StronglySorted R (filter keep l).
Proof.
  induction 1 as [|a l Hl IH Ha]; cbn [filter]; [constructor|].
  destruct (keep a); [|exact IH].
  constructor; [exact IH|].
  rewrite Forall_forall in *. intros y Hy. apply filter_In in Hy.
  now apply Ha.
Qed.

Lemma StronglySorted_map_same {A : Type} (R : A -> A -> Prop) (f : A -> A)
    (l : list A) :
  (forall x y, R x y -> R (f x) (f y)) ->
  StronglySorted R l -> StronglySorted R (map f l).
Proof.
  intros Hf. induction 1 as [|a l Hl IH Ha]; cbn [map]; [constructor|].
  constructor; [exact IH|].
  rewrite Forall_forall in *. intros y Hy. apply in_map_iff in Hy.
  destruct Hy as (y0 & <- & Hy0). now apply Hf, Ha.
Qed.

Lemma order_inv_step (w : World) (op : Op) :
  order_inv w -> op_ok w op = true -> order_inv (observe op w).
Proof.
  intros [Hsorted Hbound] Hok. unfold order_inv.
  rewrite engine_observe.
  destruct op as [attackType env|stoppedId|eid t|]; unfold observe;
    cbn [step wallClock].
  - destruct (findDefinition attackType) as [definition|] eqn:Hdef;
      cbn [wallClock].
    + destruct (op_ok_start _ _ _ _ Hdef Hok) as (_ & _ & Hlo & Hhi & _).
      rewrite (startAttack_activeAttacks _ env _ Hdef). split.
      * apply StronglySorted_snoc; [exact Hsorted|].
        eapply Forall_impl; [|exact Hbound].
        intros a Ha. unfold olderFirst. cbn [timestamp]. cbv beta in Ha. lia.
      * apply Forall_app. split.
        -- eapply Forall_impl; [|exact Hbound].
           intros a Ha. cbv beta in Ha |- *. lia.
        -- repeat constructor. cbn [timestamp]. lia.
    + rewrite startAttack_unregistered by assumption. now split.
  - rewrite stopAttack_activeAttacks. split.
    + now apply StronglySorted_filter.
    + rewrite Forall_forall in *. intros a Ha. apply filter_In in Ha.
      now apply Hbound.
  - cbn in Hok. apply Z.leb_le in Hok.
    assert (Hbound' : Forall (fun a => timestamp a <= t)
                        (activeAttacks (engine w))).
    { eapply Forall_impl; [|exact Hbound].
      intros a Ha. cbv beta in Ha |- *. lia. }
    destruct (protocolEnabled (engine w)) eqn:Hp.
    + rewrite (toggleProtocol_off _ _ _ Hp). now split.
    + rewrite (toggleProtocol_on _ _ _ Hp). cbn [activeAttacks]. split.
      * apply StronglySorted_map_same; [|exact Hsorted].
        intros x y Hxy. exact Hxy.
      * rewrite Forall_forall in *. intros a Ha. apply in_map_iff in Ha.
        destruct Ha as (a0 & <- & Ha0). exact (Hbound' a0 Ha0).
  - now split.
Qed.

(** X20. After every admissible run the active attacks have pairwise distinct
    ids and are listed in the order they were started, oldest first: their
    timestamps do not decrease along the list. *)
Theorem active_attacks_in_start_order (ops : list Op) :
  admissible ops = true ->
  NoDup (map id (activeAttacks (engine (run ops)))) /\
  StronglySorted olderFirst (activeAttacks (engine (run ops))).
Proof.
  intros Hadm. split.
  - apply (status_inv_run ops Hadm).
  - apply (admissible_run_ind order_inv);
      [|apply order_inv_step|exact Hadm].
    split; constructor.
Qed.

Lemma active_attacks_in_start_order_witness :
  StronglySorted olderFirst (activeAttacks (engine (run stopBlockedRun))).
Proof.
  refine (proj2 (active_attacks_in_start_order stopBlockedRun _)).
  vm_compute; reflexivity.
Defined.

Lemma attacks_total_step (op : Op) (s : Engine) :
  (Z.of_nat (List.length (activeAttacks (step op s)))
   - totalAttacks (stats (step op s))
   <= Z.of_nat (List.length (activeAttacks s)) - totalAttacks (stats s)) /\
  (isStop op = false ->
   Z.of_nat (List.length (activeAttacks (step op s)))
   - totalAttacks (stats (step op s))
   = Z.of_nat (List.length (activeAttacks s)) - totalAttacks (stats s)).
Proof.
  destruct op as [attackType env|stoppedId|eid t|]; cbn [step isStop].
  - destruct (findDefinition attackType) as [definition|] eqn:Hdef;
      [|rewrite startAttack_unregistered by assumption; split; [lia|tauto]].
    rewrite (startAttack_activeAttacks _ env _ Hdef),
            (startAttack_stats _ env _ Hdef), length_app.
    cbn [totalAttacks List.length]. split; [lia|intros _; lia].
  - rewrite stopAttack_activeAttacks, stopAttack_stats.
    cbn [totalAttacks].
    pose proof (filter_length_le
                  (fun a => negb (String.eqb (id a) stoppedId))
                  (activeAttacks s)).
    split; [lia|discriminate].
  - destruct (protocolEnabled s) eqn:Hp.
    + rewrite (toggleProtocol_off _ _ _ Hp).
      cbn [activeAttacks stats totalAttacks]. split; [lia|reflexivity].
    + rewrite (toggleProtocol_on _ _ _ Hp).
      cbn [activeAttacks stats totalAttacks]. rewrite length_map.
      split; [lia|reflexivity].
  - split; [cbn; lia|reflexivity].
Qed.

(** X21. The engine never prunes the list of active attacks by itself: there are
    never more active attacks than [totalAttacks], and in a run without
    [stopAttack] there are exactly [totalAttacks] of them, one per attack
    ever started. *)
Theorem active_attacks_only_removed_by_stop (ops : list Op) :
  let s := exec ops initialEngine in
  Z.of_nat (List.length (activeAttacks s)) <= totalAttacks (stats s) /\
  (forallb (fun op => negb (isStop op)) ops = true ->
   Z.of_nat (List.length (activeAttacks s)) = totalAttacks (stats s)).
Proof.
  intros s. unfold s, exec.
  assert (Hgen : forall s0,
    (Z.of_nat (List.length
       (activeAttacks (fold_left (fun s op => step op s) ops s0)))
     - totalAttacks (stats (fold_left (fun s op => step op s) ops s0))
     <= Z.of_nat (List.length (activeAttacks s0))
        - totalAttacks (stats s0)) /\
    (forallb (fun op => negb (isStop op)) ops = true ->
     Z.of_nat (List.length
       (activeAttacks (fold_left (fun s op => step op s) ops s0)))
     - totalAttacks (stats (fold_left (fun s op => step op s) ops s0))
     = Z.of_nat (List.length (activeAttacks s0))
       - totalAttacks (stats s0))).
  { induction ops as [|op ops IH]; intros s0;
      [cbn [fold_left]; split; [lia|reflexivity]|].
    cbn [fold_left forallb].
    destruct (IH (step op s0)) as [IHle IHeq].
    destruct (attacks_total_step op s0) as [Hle Heq].
    split; [lia|].
    intros Hns. apply andb_true_iff in Hns. destruct Hns as [Hop Hrest].
    apply negb_true_iff in Hop.
    rewrite (IHeq Hrest). now apply Heq. }
  destruct (Hgen initialEngine) as [Hle Heq].
  change (Z.of_nat (List.length (activeAttacks initialEngine))
          - totalAttacks (stats initialEngine)) with 0 in Hle, Heq.
  split; [lia|]. intros Hns. specialize (Heq Hns). lia.
Qed.

Lemma log_inv_run (ops : list Op) :
  admissible ops = true -> log_inv (run ops).
Proof.
  apply admissible_run_ind; [|apply log_inv_step].
  unfold log_inv. cbn. repeat split; constructor.
Qed.

(** X22. The dashboard's event panel shows the 30 newest entries logged since
    the log was last cleared, newest first. *)
Theorem visible_events_are_newest (ops : list Op) :
  admissible ops = true ->
  visibleEvents (events (engine (run ops))) =
    firstn 30 (rev (journal (run ops))) /\
  (List.length (visibleEvents (events (engine (run ops)))) <= 30)%nat.
Proof.
  intros Hadm.
  destruct (log_inv_run ops Hadm) as [Hlog _].
  unfold visibleEvents, MAX_VISIBLE. rewrite Hlog.
  split; [|apply firstn_le_length].
  unfold MAX_EVENTS. rewrite firstn_firstn. reflexivity.
Qed.

Lemma visible_events_are_newest_witness :
  (List.length (visibleEvents (events (engine (run (toggles 60)))))
   <= 30)%nat.
Proof.
  refine (proj2 (visible_events_are_newest (toggles 60) _)).
  vm_compute; reflexivity.
Defined.
